(** * watson: the thread-dump parser ([src/parser/parseThreadDump.tsx])

    A shallow embedding of the parser and the properties of its
    specification.  Strings are sequences of code units; the embedding
    covers documents whose code units are below 256 ([ascii]).  Objects
    ([Thread], [Lock]) live in a store and are referred to by address, so
    that aliasing between the dump, the threads, the locks and the
    module-level [currentThread] cursor is the one of the program. *)

From Stdlib Require Import ZArith Ascii String Lia.
From stdpp Require Import base option list strings.

Local Open Scope string_scope.
Local Open Scope list_scope.

(** ** Strings and characters *)

Module Str.

(** Code unit of a character. *)
Definition code (c : ascii) : N := N_of_ascii c.

Definition in_range (lo hi c : ascii) : bool :=
  ((code lo <=? code c) && (code c <=? code hi))%N.

(** [\d] *)
Definition is_digit (c : ascii) : bool := in_range "0" "9" c.

(** [\s] (white space and line terminators) on code units below 256:
    TAB, LF, VT, FF, CR, SP and NBSP. *)
Definition is_space (c : ascii) : bool :=
  ((9 <=? code c) && (code c <=? 13) || (code c =? 32) || (code c =? 160))%N.

(** Line terminators on code units below 256: the characters [.] refuses. *)
Definition is_line_terminator (c : ascii) : bool :=
  ((code c =? 10) || (code c =? 13))%N.

Fixpoint rev_app (s acc : string) : string :=
  match s with
  | EmptyString => acc
  | String c s' => rev_app s' (String c acc)
  end.

Definition rev (s : string) : string := rev_app s EmptyString.

Fixpoint drop_while (p : ascii -> bool) (s : string) : string :=
  match s with
  | EmptyString => EmptyString
  | String c s' => if p c then drop_while p s' else s
  end.

(** [String.prototype.trim] *)
Definition trim (s : string) : string :=
  rev (drop_while is_space (rev (drop_while is_space s))).

(** [String.prototype.startsWith] *)
Definition startsWith (s p : string) : bool := String.prefix p s.

(** [s.split('\n')], on the accumulated current piece [cur] (reversed). *)
Fixpoint split_lines_from (cur : string) (s : string) : list string :=
  match s with
  | EmptyString => [rev cur]
  | String c s' =>
      if (code c =? 10)%N then rev cur :: split_lines_from EmptyString s'
      else split_lines_from (String c cur) s'
  end.

Definition split_lines (s : string) : list string := split_lines_from EmptyString s.

(** The value of a run of decimal digits read left to right. *)
Fixpoint digits_value (acc : Z) (s : string) : Z :=
  match s with
  | EmptyString => acc
  | String c s' =>
      if is_digit c
      then digits_value (10 * acc + Z.of_N (code c - 48)) s'
      else acc
  end.

(** A [number] that [parseInt] returns: [NaN], an infinity, or an integer
    that a double holds.  The two zeros are the one [Num 0]: the program
    does not tell them apart. *)
Inductive number : Type :=
| NaN
| Num (z : Z)
| Infinity (negative : bool).

(** The double nearest to a natural number, ties to even, as the integer it
    holds: a number of more than 53 bits keeps its 53 leading bits, rounded.
    The result is [2^1024] when the nearest double would be out of range. *)
Definition round_to_double (n : Z) : Z :=
  let k := (Z.log2 n - 52)%Z in
  if (k <=? 0)%Z then n
  else
    let q := Z.shiftr n k in
    let r := Z.land n (Z.ones k) in
    let half := Z.shiftl 1 (k - 1) in
    let q := if (half <? r)%Z || ((r =? half)%Z && Z.odd q) then (q + 1)%Z else q in
    Z.shiftl q k.

(** The [number] of a sign and a natural number. *)
Definition to_number (negative : bool) (n : Z) : number :=
  let m := round_to_double n in
  if (Z.shiftl 1 1024 <=? m)%Z then Infinity negative
  else Num (if negative then - m else m)%Z.

(** [parseInt(s, 10)]: leading white space is skipped, a sign is read, then
    the longest run of decimal digits; without a digit the result is [NaN].
    The result is the double nearest to the integer that the digits write
    (an engine may also drop the digits after the 20th; the usual engines
    keep them). *)
Definition parseInt10 (s : string) : number :=
  let body := drop_while is_space s in
  let '(neg, ds) :=
    match body with
    | String "-" r => (true, r)
    | String "+" r => (false, r)
    | _ => (false, body)
    end in
  match ds with
  | String c _ =>
      if is_digit c then to_number neg (digits_value 0 ds) else NaN
  | EmptyString => NaN
  end.

End Str.

(** ** Regular expressions

    The patterns of the parser use a small fragment of the regular
    expressions of the language: anchors, literal characters, character
    classes, and one quantifier on one character class, possibly inside a
    capturing group.  [run] is the backtracking matcher of that fragment. *)

Module RegExp.

Inductive cset : Type :=
| Chr (c : ascii)                                   (* a literal character *)
| Dot                                               (* [.] *)
| Space                                             (* [\s] *)
| Digit                                             (* [\d] *)
| Set_ (ranges : list (ascii * ascii)) (cs : list ascii).  (* [[...]] *)

Inductive quant : Type :=
| One          (* no quantifier *)
| Opt          (* [?] *)
| Star         (* [*] *)
| Plus         (* [+] *)
| LazyStar.    (* [*?] *)

Inductive node : Type :=
| Bol                                 (* [^] *)
| Eol                                 (* [$] *)
| Atom (a : cset) (q : quant)         (* a quantified class *)
| Cap (a : cset) (q : quant).         (* the same inside [( )] *)

Definition regexp : Type := list node.

Definition accepts (a : cset) (c : ascii) : bool :=
  match a with
  | Chr c' => bool_decide (c = c')
  | Dot => negb (Str.is_line_terminator c)
  | Space => Str.is_space c
  | Digit => Str.is_digit c
  | Set_ ranges cs =>
      existsb (fun r => Str.in_range (fst r) (snd r) c) ranges
      || existsb (fun c' => bool_decide (c = c')) cs
  end.

Section Quantifiers.
Context {R : Type}.
(** The continuation receives what remains of the input, the number of
    code units the quantified class consumed, and the text it consumed
    in reverse. *)
Variable p : ascii -> bool.
Variable k : string -> nat -> string -> option R.

(** Greedy repetition: one more character first, the rest of the pattern
    on failure. *)
Fixpoint greedy (s : string) (n : nat) (acc : string) : option R :=
  match s with
  | String c s' =>
      if p c
      then match greedy s' (S n) (String c acc) with
           | Some r => Some r
           | None => k s n acc
           end
      else k s n acc
  | EmptyString => k s n acc
  end.

(** Lazy repetition: the rest of the pattern first, one more character
    on failure. *)
Fixpoint lazy (s : string) (n : nat) (acc : string) : option R :=
  match k s n acc with
  | Some r => Some r
  | None =>
      match s with
      | String c s' => if p c then lazy s' (S n) (String c acc) else None
      | EmptyString => None
      end
  end.

Definition one (s : string) : option R :=
  match s with
  | String c s' => if p c then k s' 1 (String c EmptyString) else None
  | EmptyString => None
  end.

Definition quantified (q : quant) (s : string) : option R :=
  match q with
  | One => one s
  | Opt => match one s with Some r => Some r | None => k s 0 EmptyString end
  | Star => greedy s 0 EmptyString
  | Plus =>
      match s with
      | String c s' => if p c then greedy s' 1 (String c EmptyString) else None
      | EmptyString => None
      end
  | LazyStar => lazy s 0 EmptyString
  end.
End Quantifiers.

(** [run r pos s caps]: match [r] against [s], which starts at offset [pos]
    of the input; the result is the texts of the capturing groups. *)
Fixpoint run (r : regexp) (pos : nat) (s : string) (caps : list string)
  : option (list string) :=
  match r with
  | [] => Some caps
  | Bol :: r' => if bool_decide (pos = 0) then run r' pos s caps else None
  | Eol :: r' => if bool_decide (s = EmptyString) then run r' pos s caps else None
  | Atom a q :: r' =>
      quantified (accepts a) (fun s' n _ => run r' (pos + n) s' caps) q s
  | Cap a q :: r' =>
      quantified (accepts a)
        (fun s' n acc => run r' (pos + n) s' (caps ++ [Str.rev acc])) q s
  end.

(** [RegExp.prototype.exec]: the leftmost start offset at which the pattern
    matches. *)
Fixpoint search (r : regexp) (pos : nat) (s : string) : option (list string) :=
  match run r pos s [] with
  | Some caps => Some caps
  | None =>
      match s with
      | String _ s' => search r (S pos) s'
      | EmptyString => None
      end
  end.

Definition exec (r : regexp) (s : string) : option (list string) :=
  search r 0 s.

(** A literal piece of a pattern. *)
Fixpoint lit (s : string) : regexp :=
  match s with
  | EmptyString => []
  | String c s' => Atom (Chr c) One :: lit s'
  end.

End RegExp.
Import RegExp.

(** ** [RegExpUtils] *)

(** Modelled from the spec: [matchMultipleGroups] of [RegExpUtils], which is
    not among the sources: the texts of the capturing groups of the first
    match, and no text at all when the line does not match. *)
Definition matchMultipleGroups (line : string) (r : regexp) : list string :=
  match exec r line with
  | Some caps => caps
  | None => []
  end.

(** Modelled from the spec: [matchOne] of [RegExpUtils], which is not among
    the sources: the text of the first capturing group of the first match,
    and the empty string when the line does not match. *)
Definition matchOne (line : string) (r : regexp) : string :=
  match exec r line with
  | Some (c :: _) => c
  | _ => EmptyString
  end.

(** Truthiness of a string: [if (s)]. *)
Definition truthy (s : string) : bool := negb (bool_decide (s = EmptyString)).

(** ** The patterns

    In the comments a capturing group is written with braces: [{.*}] is the
    group around [.*]. *)

Definition hex_x : cset :=
  Set_ [("0", "9"); ("a", "f")]%char ["x"]%char.

(** The double quote character. *)
Definition dquote : ascii := "034"%char.

Definition THREAD_HEADER_PREFIX : string := String dquote EmptyString.

(** [/^Q{.*}Q /] where [Q] is the double quote character *)
Definition NAME_PATTERN : regexp :=
  [Bol; Atom (Chr dquote) One; Cap Dot Star; Atom (Chr dquote) One;
   Atom (Chr " ") One].

(** [/ nid={[0-9a-fx,]+}/] *)
Definition NID_PATTERN : regexp :=
  lit " nid=" ++ [Cap (Set_ [("0", "9"); ("a", "f")]%char ["x"; ","]%char) Plus].

(** [/^\s+at {.*}/] *)
Definition FRAME_PATTERN : regexp :=
  [Bol; Atom Space Plus] ++ lit "at " ++ [Cap Dot Star].

(** [/^\s*java.lang.Thread.State: {.*}/] (the dots are unescaped) *)
Definition THREAD_STATE_PATTERN : regexp :=
  [Bol; Atom Space Star] ++ lit "java" ++ [Atom Dot One] ++ lit "lang"
    ++ [Atom Dot One] ++ lit "Thread" ++ [Atom Dot One] ++ lit "State: "
    ++ [Cap Dot Star].

(** [/^\s+- {.*?} +<{[x0-9a-f]+}> \(a {.*}\)/] *)
Definition SYNCHRONIZATION_STATUS_PATTERN : regexp :=
  [Bol; Atom Space Plus] ++ lit "- " ++ [Cap Dot LazyStar; Atom (Chr " ") Plus]
    ++ lit "<" ++ [Cap hex_x Plus] ++ lit "> (a " ++ [Cap Dot Star] ++ lit ")".

(** [/^\s+Locked ownable synchronizers:/] *)
Definition LOCKED_OWNABLE_SYNCHRONIZERS_PATTERN : regexp :=
  [Bol; Atom Space Plus] ++ lit "Locked ownable synchronizers:".

(** [/^\s+- None/] *)
Definition NONE_HELD_PATTERN : regexp :=
  [Bol; Atom Space Plus] ++ lit "- None".

(** [/^\s+- <{[x0-9a-f]+}> \(a {.*}\)/] *)
Definition HELD_LOCK_PATTERN : regexp :=
  [Bol; Atom Space Plus] ++ lit "- <" ++ [Cap hex_x Plus] ++ lit "> (a "
    ++ [Cap Dot Star] ++ lit ")".

(** [/^\s?JNI global references: {\d+}/] *)
Definition JNI_REFERENCES_PATTERN : regexp :=
  [Bol; Atom Space Opt] ++ lit "JNI global references: " ++ [Cap Digit Plus].

(** [/\.{\d*}\.txt$/] *)
Definition FILENAME_DATE_PATTERN : regexp :=
  lit "." ++ [Cap Digit Star] ++ lit ".txt" ++ [Eol].

(** ** The data model ([src/types]) *)

(** Modelled from the spec: the enumeration [ThreadStatus], which is not among
    the sources, with the member names the specification lists. *)
Inductive ThreadStatus : Type :=
| RUNNABLE | BLOCKED | WAITING | TIMED_WAITING | NEW | TERMINATED | UNKNOWN.

#[global] Instance ThreadStatus_eq_dec : EqDecision ThreadStatus.
Proof. solve_decision. Defined.

(** Modelled from the spec: the member names of [ThreadStatus], which are
    the own keys of the object of the enumeration. *)
Definition ThreadStatus_members : list (string * ThreadStatus) :=
  [("RUNNABLE", RUNNABLE); ("BLOCKED", BLOCKED); ("WAITING", WAITING);
   ("TIMED_WAITING", TIMED_WAITING); ("NEW", NEW); ("TERMINATED", TERMINATED);
   ("UNKNOWN", UNKNOWN)].

(** Modelled from the spec: the member of the enumeration with that exact
    name. *)
Fixpoint member_named (key : string) (ms : list (string * ThreadStatus))
  : option ThreadStatus :=
  match ms with
  | [] => None
  | (n, st) :: ms' => if bool_decide (n = key) then Some st else member_named key ms'
  end.

(** What a read of a property of the enumeration gives: a member, or a
    property that the object of the enumeration inherits, named by its key
    (a function of [Object.prototype], or that prototype for [__proto__]). *)
Inductive status_value : Type :=
| Member (st : ThreadStatus)
| Inherited (key : string).

#[global] Instance status_value_eq_dec : EqDecision status_value.
Proof. solve_decision. Defined.

(** The properties every object inherits from [Object.prototype]. *)
Definition Object_prototype_keys : list string :=
  ["constructor"; "hasOwnProperty"; "isPrototypeOf"; "propertyIsEnumerable";
   "toLocaleString"; "toString"; "valueOf"; "__proto__";
   "__defineGetter__"; "__defineSetter__"; "__lookupGetter__";
   "__lookupSetter__"].

(** [ThreadStatus[key]]: the member of that name, else the inherited property
    of that name, else [None] ([undefined]). *)
Definition ThreadStatus_of_key (key : string) : option status_value :=
  match member_named key ThreadStatus_members with
  | Some st => Some (Member st)
  | None =>
      if bool_decide (key ∈ Object_prototype_keys) then Some (Inherited key)
      else None
  end.

(** Objects are referred to by their address in the store. *)
Definition thread_ref : Type := nat.
Definition lock_ref : Type := nat.

(** Modelled from the spec: the class [Lock], which is not among the sources;
    a new lock has no owner and nobody waiting. *)
Module Lock.
Record t : Type := mk {
  id : string;
  className : string;
  owner : option thread_ref;
  waiting : list thread_ref;
}.
Definition new : t :=
  {| id := EmptyString; className := EmptyString; owner := None; waiting := [] |}.
Definition set_id (v : string) (l : t) : t :=
  {| id := v; className := className l; owner := owner l; waiting := waiting l |}.
Definition set_className (v : string) (l : t) : t :=
  {| id := id l; className := v; owner := owner l; waiting := waiting l |}.
Definition set_owner (v : option thread_ref) (l : t) : t :=
  {| id := id l; className := className l; owner := v; waiting := waiting l |}.
Definition push_waiting (v : thread_ref) (l : t) : t :=
  {| id := id l; className := className l; owner := owner l;
     waiting := waiting l ++ [v] |}.
End Lock.

(** Modelled from the spec: the class [Thread], which is not among the
    sources; a new thread has no status, no wait-target, and empty lists,
    and no number as its id until the header gives it one. *)
Module Thread.
Record t : Type := mk {
  id : Str.number;
  name : string;
  status : option status_value;
  locksHeld : list lock_ref;
  classicalLocksHeld : list lock_ref;
  lockWaitingFor : option lock_ref;
  stackTrace : list string;
}.
Definition new : t :=
  {| id := Str.NaN; name := EmptyString; status := None; locksHeld := [];
     classicalLocksHeld := []; lockWaitingFor := None; stackTrace := [] |}.
Definition set_id (v : Str.number) (x : t) : t :=
  mk v (name x) (status x) (locksHeld x) (classicalLocksHeld x)
     (lockWaitingFor x) (stackTrace x).
Definition set_name (v : string) (x : t) : t :=
  mk (id x) v (status x) (locksHeld x) (classicalLocksHeld x)
     (lockWaitingFor x) (stackTrace x).
Definition set_status (v : option status_value) (x : t) : t :=
  mk (id x) (name x) v (locksHeld x) (classicalLocksHeld x)
     (lockWaitingFor x) (stackTrace x).
Definition set_locksHeld (v : list lock_ref) (x : t) : t :=
  mk (id x) (name x) (status x) v (classicalLocksHeld x)
     (lockWaitingFor x) (stackTrace x).
Definition set_classicalLocksHeld (v : list lock_ref) (x : t) : t :=
  mk (id x) (name x) (status x) (locksHeld x) v
     (lockWaitingFor x) (stackTrace x).
Definition set_lockWaitingFor (v : option lock_ref) (x : t) : t :=
  mk (id x) (name x) (status x) (locksHeld x) (classicalLocksHeld x)
     v (stackTrace x).
Definition push_stackTrace (v : string) (x : t) : t :=
  mk (id x) (name x) (status x) (locksHeld x) (classicalLocksHeld x)
     (lockWaitingFor x) (stackTrace x ++ [v]).
Definition push_locksHeld (v : lock_ref) (x : t) : t :=
  set_locksHeld (locksHeld x ++ [v]) x.
Definition push_classicalLocksHeld (v : lock_ref) (x : t) : t :=
  set_classicalLocksHeld (classicalLocksHeld x ++ [v]) x.
End Thread.

(** Modelled from the spec: the class [ThreadDump], which is not among the
    sources.  [date] is the run of digits [getDateFromFilename] (not among
    the sources either) finds in the file name; its conversion to a date is
    left out. *)
Module ThreadDump.
Record t : Type := mk {
  date : option string;
  threads : list thread_ref;
  locks : list lock_ref;
}.
Definition new : t := {| date := None; threads := []; locks := [] |}.
Definition set_date (v : option string) (d : t) : t :=
  mk v (threads d) (locks d).
Definition set_threads (v : list thread_ref) (d : t) : t :=
  mk (date d) v (locks d).
Definition set_locks (v : list lock_ref) (d : t) : t :=
  mk (date d) (threads d) v.
End ThreadDump.

(** ** The state of the process

    The objects allocated so far, the module-level variable [currentThread]
    (line 22 of the parser; it outlives a call of [parseThreadDump]) and the
    warnings written to the console. *)
Record Proc : Type := mkProc {
  thread_store : list Thread.t;
  lock_store : list Lock.t;
  currentThread : option thread_ref;
  console : list string;
}.

(** The state of a process that has parsed nothing yet. *)
Definition fresh : Proc :=
  {| thread_store := []; lock_store := []; currentThread := None; console := [] |}.

Definition get_thread (p : Proc) (t : thread_ref) : option Thread.t :=
  thread_store p !! t.

Definition get_lock (p : Proc) (l : lock_ref) : option Lock.t :=
  lock_store p !! l.

(** A field of the object at an address is written. *)
Definition upd_thread (t : thread_ref) (f : Thread.t -> Thread.t) (p : Proc) : Proc :=
  mkProc (alter f t (thread_store p)) (lock_store p) (currentThread p) (console p).

Definition upd_lock (l : lock_ref) (f : Lock.t -> Lock.t) (p : Proc) : Proc :=
  mkProc (thread_store p) (alter f l (lock_store p)) (currentThread p) (console p).

(** [new Thread()] and [new Lock()]: the new object is at the next address. *)
Definition alloc_thread (x : Thread.t) (p : Proc) : thread_ref * Proc :=
  (length (thread_store p),
   mkProc (thread_store p ++ [x]) (lock_store p) (currentThread p) (console p)).

Definition alloc_lock (x : Lock.t) (p : Proc) : lock_ref * Proc :=
  (length (lock_store p),
   mkProc (thread_store p) (lock_store p ++ [x]) (currentThread p) (console p)).

Definition set_currentThread (t : option thread_ref) (p : Proc) : Proc :=
  mkProc (thread_store p) (lock_store p) t (console p).

(** [console.warn] *)
Definition warn (msg : string) (p : Proc) : Proc :=
  mkProc (thread_store p) (lock_store p) (currentThread p) (console p ++ [msg]).

(** What the program can throw. *)
Inductive error : Type :=
| TypeError (msg : string).

(** ** The parser ([src/parser/parseThreadDump.tsx]) *)

(** Lines 144-162.  What line 146 reads is returned whenever it is not
    [undefined], a member or not. *)
Definition stringToThreadStatus (status : string) : status_value :=
  match ThreadStatus_of_key status with
  | Some threadStatus => threadStatus
  | None =>
      if Str.startsWith status "BLOCKED" then Member BLOCKED
      else if Str.startsWith status "WAITING" then Member WAITING
      else if Str.startsWith status "TIME_WAITING" then Member TIMED_WAITING
      else Member UNKNOWN
  end.

(** The loop of lines 165-169: the first lock of [locks] with that id. *)
Fixpoint find_lock (p : Proc) (locks : list lock_ref) (id : string)
  : option lock_ref :=
  match locks with
  | [] => None
  | existingLock :: rest =>
      match get_lock p existingLock with
      | Some lk =>
          if bool_decide (Lock.id lk = id) then Some existingLock
          else find_lock p rest id
      | None => find_lock p rest id
      end
  end.

(** Lines 164-177.  The array [locks] is the one of the dump; the result has
    the lock, the array after the call and the state after the call. *)
Definition getOrCreateLock (locks : list lock_ref) (id className : string)
    (p : Proc) : lock_ref * list lock_ref * Proc :=
  match find_lock p locks id with
  | Some existingLock => (existingLock, locks, p)
  | None =>
      let '(newLock, p) := alloc_lock Lock.new p in
      let p := upd_lock newLock (Lock.set_id id) p in
      let p := upd_lock newLock (Lock.set_className className) p in
      (newLock, locks ++ [newLock], p)
  end.

(** Lines 43-49. *)
Definition parseThreadHeader (header : string) (threadDump : ThreadDump.t)
    (p : Proc) : ThreadDump.t * Proc :=
  let '(t, p) := alloc_thread Thread.new p in
  let p := set_currentThread (Some t) p in
  let threadDump :=
    ThreadDump.set_threads (ThreadDump.threads threadDump ++ [t]) threadDump in
  let p := upd_thread t (Thread.set_name (Str.trim (matchOne header NAME_PATTERN))) p in
  let p := upd_thread t (Thread.set_id (Str.parseInt10 (matchOne header NID_PATTERN))) p in
  (threadDump, p).

(** The test of line 84. *)
Definition waits_for_id (p : Proc) (t : thread_ref) (lockId : string) : bool :=
  match get_thread p t with
  | Some th =>
      match Thread.lockWaitingFor th with
      | Some l =>
          match get_lock p l with
          | Some lk => bool_decide (Lock.id lk = lockId)
          | None => false
          end
      | None => false
      end
  | None => false
  end.

(** Lines 78-81. *)
Definition record_wait (t : thread_ref) (lockId className : string)
    (threadDump : ThreadDump.t) (p : Proc) : ThreadDump.t * Proc :=
  let '(lock, locks, p) :=
    getOrCreateLock (ThreadDump.locks threadDump) lockId className p in
  let p := upd_lock lock (Lock.push_waiting t) p in
  let p := upd_thread t (Thread.set_lockWaitingFor (Some lock)) p in
  (ThreadDump.set_locks locks threadDump, p).

(** Lines 84-92. *)
Definition record_locked (t : thread_ref) (lockId className : string)
    (threadDump : ThreadDump.t) (p : Proc) : ThreadDump.t * Proc :=
  if waits_for_id p t lockId then (threadDump, p)
  else
    let '(lock, locks, p) :=
      getOrCreateLock (ThreadDump.locks threadDump) lockId className p in
    let p := upd_lock lock (Lock.set_owner (Some t)) p in
    let p := upd_thread t (Thread.push_locksHeld lock) p in
    let p := upd_thread t (Thread.push_classicalLocksHeld lock) p in
    (ThreadDump.set_locks locks threadDump, p).

(** Lines 109-112. *)
Definition record_held (t : thread_ref) (lockId className : string)
    (threadDump : ThreadDump.t) (p : Proc) : ThreadDump.t * Proc :=
  let '(lock, locks, p) :=
    getOrCreateLock (ThreadDump.locks threadDump) lockId className p in
  let p := upd_lock lock (Lock.set_owner (Some t)) p in
  let p := upd_thread t (Thread.push_locksHeld lock) p in
  (ThreadDump.set_locks locks threadDump, p).

(** The three [case] labels of lines 75-77. *)
Definition is_wait_verb (state : string) : bool :=
  bool_decide (state = "waiting on")
  || bool_decide (state = "parking to wait for")
  || bool_decide (state = "waiting to lock").

(** Lines 51-123. *)
Definition parseStackLine (line : string) (threadDump : ThreadDump.t)
    (p : Proc) : ThreadDump.t * Proc :=
  match currentThread p with
  | None => (threadDump, p)
  | Some t =>
      let frame := matchOne line FRAME_PATTERN in
      if truthy frame then
        (threadDump, upd_thread t (Thread.push_stackTrace frame) p)
      else
      let threadState := matchOne line THREAD_STATE_PATTERN in
      if truthy threadState then
        (threadDump,
         upd_thread t (Thread.set_status (Some (stringToThreadStatus threadState))) p)
      else
      match matchMultipleGroups line SYNCHRONIZATION_STATUS_PATTERN with
      | [state; lockId; className] =>
          if is_wait_verb state
          then record_wait t lockId className threadDump p
          else if bool_decide (state = "locked")
          then record_locked t lockId className threadDump p
          else if bool_decide (state = "eliminated")
          then (threadDump, p)
          else (threadDump, warn ("Unknown synchronziation status: " ++ line) p)
      | _ =>
          match matchMultipleGroups line HELD_LOCK_PATTERN with
          | [lockId; className] => record_held t lockId className threadDump p
          | _ =>
              if truthy (matchOne line LOCKED_OWNABLE_SYNCHRONIZERS_PATTERN)
                 || truthy (matchOne line NONE_HELD_PATTERN)
                 || truthy (matchOne line JNI_REFERENCES_PATTERN)
              then (threadDump, p)
              else (threadDump, warn ("Unable to parse line: " ++ line) p)
          end
      end
  end.

(** Lines 35-41. *)
Definition parseLine (line : string) (threadDump : ThreadDump.t) (p : Proc)
  : ThreadDump.t * Proc :=
  if Str.startsWith line THREAD_HEADER_PREFIX then
    parseThreadHeader line threadDump p
  else if truthy line then
    parseStackLine line threadDump p
  else (threadDump, p).

(** [lines.forEach(line => parseLine(line, threadDump))] *)
Fixpoint parseLines (lines : list string) (threadDump : ThreadDump.t) (p : Proc)
  : ThreadDump.t * Proc :=
  match lines with
  | [] => (threadDump, p)
  | line :: rest =>
      let '(threadDump, p) := parseLine line threadDump p in
      parseLines rest threadDump p
  end.

(** [Array.prototype.indexOf]: [None] is [-1]. *)
Fixpoint indexOf (x : nat) (l : list nat) : option nat :=
  match l with
  | [] => None
  | y :: l' => if bool_decide (y = x) then Some 0 else S <$> indexOf x l'
  end.

(** [l.splice(start, 1)] for a start that [indexOf] returned: a start of [-1]
    counts from the end, so that the last element goes. *)
Definition splice1 (start : option nat) (l : list nat) : list nat :=
  match start with
  | Some i => delete i l
  | None => delete (length l - 1) l
  end.

Definition validStatuses : list ThreadStatus := [BLOCKED; TIMED_WAITING; WAITING].

(** [!thread.lockWaitingFor] *)
Definition no_wait_target (p : Proc) (t : thread_ref) : bool :=
  match get_thread p t with
  | Some th => bool_decide (Thread.lockWaitingFor th = None)
  | None => false
  end.

(** [validStatuses.includes(thread.status)] *)
Definition has_valid_status (p : Proc) (t : thread_ref) : bool :=
  match get_thread p t with
  | Some th =>
      match Thread.status th with
      | Some (Member st) => bool_decide (st ∈ validStatuses)
      | _ => false
      end
  | None => false
  end.

(** The body of the [forEach] of lines 133-141.  [classicalLocksHeld[0]] of an
    empty array is [undefined], and line 135 then throws. *)
Definition resolve_thread (t : thread_ref) (p : Proc) : error + Proc :=
  match get_thread p t with
  | None => inr p
  | Some th =>
      match Thread.classicalLocksHeld th !! 0 with
      | None => inl (TypeError "Cannot set properties of undefined (setting 'owner')")
      | Some lock =>
          let p := upd_lock lock (Lock.set_owner None) p in
          let p := upd_lock lock (Lock.push_waiting t) p in
          let p := upd_thread t (Thread.set_lockWaitingFor (Some lock)) p in
          let p := upd_thread t (fun th =>
            Thread.set_locksHeld
              (splice1 (indexOf lock (Thread.locksHeld th)) (Thread.locksHeld th)) th) p in
          let p := upd_thread t (fun th =>
            Thread.set_classicalLocksHeld
              (splice1 (indexOf lock (Thread.classicalLocksHeld th))
                       (Thread.classicalLocksHeld th)) th) p in
          inr p
      end
  end.

Fixpoint forEach_resolve (ts : list thread_ref) (p : Proc) : error + Proc :=
  match ts with
  | [] => inr p
  | t :: rest =>
      match resolve_thread t p with
      | inl e => inl e
      | inr p' => forEach_resolve rest p'
      end
  end.

(** Lines 125-142: both filters run on the array before the first call of
    the body. *)
Definition identifyAnonymousSynchronizers (threads : list thread_ref) (p : Proc)
  : error + Proc :=
  let selected :=
    List.filter (has_valid_status p) (List.filter (no_wait_target p) threads) in
  forEach_resolve selected p.

(** Modelled from the spec: [getDateFromFilename] of [RegExpUtils], which is
    not among the sources: the digits before [.txt], if the name has them. *)
Definition getDateFromFilename (fileName : string) (r : regexp) : option string :=
  match exec r fileName with
  | Some (c :: _) => Some c
  | _ => None
  end.

(** Lines 24-33.  [fileName] is [file.name], [text] is [reader.result]; the
    result is the dump handed to the callback. *)
Definition parseThreadDump (fileName text : string) (p : Proc)
  : error + (ThreadDump.t * Proc) :=
  let threadDump := ThreadDump.new in
  let threadDump :=
    ThreadDump.set_date (getDateFromFilename fileName FILENAME_DATE_PATTERN)
      threadDump in
  let lines := Str.split_lines text in
  let '(threadDump, p) := parseLines lines threadDump p in
  match identifyAnonymousSynchronizers (ThreadDump.threads threadDump) p with
  | inl e => inl e
  | inr p => inr (threadDump, p)
  end.

(** ** Notions the properties are stated with *)

(** All the characters of a string are in a class. *)
Fixpoint all_in (p : ascii -> bool) (s : string) : bool :=
  match s with
  | EmptyString => true
  | String c s' => p c && all_in p s'
  end.

(** The first character of a line after its leading white space. *)
Definition lead (s : string) : option ascii :=
  match Str.drop_while Str.is_space s with
  | String c _ => Some c
  | EmptyString => None
  end.

(** The groups of a line as a synchronization-status record (line 68) and as
    a held-lock record (line 104). *)
Definition sync_of (line : string) : list string :=
  matchMultipleGroups line SYNCHRONIZATION_STATUS_PATTERN.

Definition held_of (line : string) : list string :=
  matchMultipleGroups line HELD_LOCK_PATTERN.

(** What a line makes the parser do.  [action_of] takes the tests of
    [parseLine] and [parseStackLine] in their order; [perform] is the effect. *)
Inductive action : Type :=
| Skip
| Warn (msg : string)
| Header (header : string)
| Frame (t : thread_ref) (frame : string)
| State (t : thread_ref) (st : status_value)
| Wait (t : thread_ref) (lockId className : string)
| Locked (t : thread_ref) (lockId className : string)
| Held (t : thread_ref) (lockId className : string).

Definition perform (a : action) (threadDump : ThreadDump.t) (p : Proc)
  : ThreadDump.t * Proc :=
  match a with
  | Skip => (threadDump, p)
  | Warn msg => (threadDump, warn msg p)
  | Header header => parseThreadHeader header threadDump p
  | Frame t frame => (threadDump, upd_thread t (Thread.push_stackTrace frame) p)
  | State t st => (threadDump, upd_thread t (Thread.set_status (Some st)) p)
  | Wait t lockId className => record_wait t lockId className threadDump p
  | Locked t lockId className => record_locked t lockId className threadDump p
  | Held t lockId className => record_held t lockId className threadDump p
  end.

Definition stack_action_of (line : string) (t : thread_ref) : action :=
  if truthy (matchOne line FRAME_PATTERN) then
    Frame t (matchOne line FRAME_PATTERN)
  else if truthy (matchOne line THREAD_STATE_PATTERN) then
    State t (stringToThreadStatus (matchOne line THREAD_STATE_PATTERN))
  else
    match sync_of line with
    | [state; lockId; className] =>
        if is_wait_verb state then Wait t lockId className
        else if bool_decide (state = "locked") then Locked t lockId className
        else if bool_decide (state = "eliminated") then Skip
        else Warn ("Unknown synchronziation status: " ++ line)
    | _ =>
        match held_of line with
        | [lockId; className] => Held t lockId className
        | _ =>
            if truthy (matchOne line LOCKED_OWNABLE_SYNCHRONIZERS_PATTERN)
               || truthy (matchOne line NONE_HELD_PATTERN)
               || truthy (matchOne line JNI_REFERENCES_PATTERN)
            then Skip
            else Warn ("Unable to parse line: " ++ line)
        end
    end.

Definition action_of (line : string) (p : Proc) : action :=
  if Str.startsWith line THREAD_HEADER_PREFIX then Header line
  else if truthy line then
    match currentThread p with
    | None => Skip
    | Some t => stack_action_of line t
    end
  else Skip.


(** The addresses the program follows are addresses of objects: the cursor,
    the wait-targets and the classical held locks. *)
Definition store_ok (p : Proc) : Prop :=
  (forall t, currentThread p = Some t -> is_Some (get_thread p t))
  /\ (forall t th l, get_thread p t = Some th ->
        Thread.lockWaitingFor th = Some l -> is_Some (get_lock p l))
  /\ (forall t th l, get_thread p t = Some th ->
        l ∈ Thread.classicalLocksHeld th -> is_Some (get_lock p l)).

(** The locks of a dump are objects. *)
Definition dump_ok (threadDump : ThreadDump.t) (p : Proc) : Prop :=
  forall l, l ∈ ThreadDump.locks threadDump -> is_Some (get_lock p l).




(** The wait-target of a thread is not among the locks it holds. *)
Definition exclusive (p : Proc) : Prop :=
  forall t th l, get_thread p t = Some th -> Thread.lockWaitingFor th = Some l ->
    l ∉ Thread.locksHeld th.

(** The lock of a list of locks with a given id is its first one. *)
Definition first_with_id (p : Proc) (locks : list lock_ref) (id : string)
    (l : lock_ref) : Prop :=
  exists i lk, locks !! i = Some l /\ get_lock p l = Some lk /\ Lock.id lk = id
    /\ forall j l' lk', j < i -> locks !! j = Some l' -> get_lock p l' = Some lk' ->
         Lock.id lk' <> id.

(** The classification of a token among the members: the member of that
    exact name, else the first of the three prefixes the token starts with,
    else UNKNOWN. *)
Inductive classifies : string -> ThreadStatus -> Prop :=
| classifies_exact token st :
    (token, st) ∈ ThreadStatus_members -> classifies token st
| classifies_blocked token rest :
    (forall st, (token, st) ∉ ThreadStatus_members) ->
    token = ("BLOCKED" ++ rest)%string -> classifies token BLOCKED
| classifies_waiting token rest :
    (forall st, (token, st) ∉ ThreadStatus_members) ->
    (forall r, token <> ("BLOCKED" ++ r)%string) ->
    token = ("WAITING" ++ rest)%string -> classifies token WAITING
| classifies_time_waiting token rest :
    (forall st, (token, st) ∉ ThreadStatus_members) ->
    (forall r, token <> ("BLOCKED" ++ r)%string) ->
    (forall r, token <> ("WAITING" ++ r)%string) ->
    token = ("TIME_WAITING" ++ rest)%string -> classifies token TIMED_WAITING
| classifies_unknown token :
    (forall st, (token, st) ∉ ThreadStatus_members) ->
    (forall r, token <> ("BLOCKED" ++ r)%string) ->
    (forall r, token <> ("WAITING" ++ r)%string) ->
    (forall r, token <> ("TIME_WAITING" ++ r)%string) ->
    classifies token UNKNOWN.

(** A write to the thread at [t] after a write to the lock at [l]: the shape
    of the records and of the resolver. *)
Definition touch (t : thread_ref) (f : Thread.t -> Thread.t)
    (l : lock_ref) (g : Lock.t -> Lock.t) (p : Proc) : Proc :=
  upd_thread t f (upd_lock l g p).

(** What the resolver does to the thread and to its first classical lock. *)
Definition resolved_thread (lock : lock_ref) (th : Thread.t) : Thread.t :=
  let th := Thread.set_lockWaitingFor (Some lock) th in
  let th :=
    Thread.set_locksHeld
      (splice1 (indexOf lock (Thread.locksHeld th)) (Thread.locksHeld th)) th in
  Thread.set_classicalLocksHeld
    (splice1 (indexOf lock (Thread.classicalLocksHeld th))
             (Thread.classicalLocksHeld th)) th.

Definition resolved_lock (t : thread_ref) (lk : Lock.t) : Lock.t :=
  Lock.push_waiting t (Lock.set_owner None lk).

(** The state only grows while lines are read: a lock keeps its id and its
    class name, a thread keeps the locks it holds. *)
Definition evolves (p p' : Proc) : Prop :=
  (forall l lk, get_lock p l = Some lk ->
     exists lk', get_lock p' l = Some lk' /\ Lock.id lk' = Lock.id lk
                 /\ Lock.className lk' = Lock.className lk)
  /\ (forall t th, get_thread p t = Some th ->
        exists th', get_thread p' t = Some th'
                    /\ forall x, x ∈ Thread.locksHeld th -> x ∈ Thread.locksHeld th').

(** The thread an action writes to is the one of the cursor. *)
Definition on_cursor (a : action) (p : Proc) : Prop :=
  match a with
  | Frame t _ | State t _ | Wait t _ _ | Locked t _ _ | Held t _ _ =>
      currentThread p = Some t
  | _ => True
  end.

(** The locks a thread holds are objects. *)
Definition held_ok (p : Proc) : Prop :=
  forall t th l, get_thread p t = Some th -> l ∈ Thread.locksHeld th ->
    is_Some (get_lock p l).







(** The dump a call starts with (lines 25-26). *)
Definition dump_start (fileName : string) : ThreadDump.t :=
  ThreadDump.set_date (getDateFromFilename fileName FILENAME_DATE_PATTERN)
    ThreadDump.new.









(** The state after the lines of a call, before the resolver. *)
Definition state_after_lines (fileName text : string) (p : Proc) : Proc :=
  (parseLines (Str.split_lines text) (dump_start fileName) p).2.

(** The dump after the lines of a call. *)
Definition dump_after_lines (fileName text : string) (p : Proc) : ThreadDump.t :=
  (parseLines (Str.split_lines text) (dump_start fileName) p).1.
(** ** Documents *)

Definition newline : string := String "010"%char EmptyString.

(** The text of a document given by its lines. *)
Definition document (lines : list string) : string := String.concat newline lines.

(** A thread header: the name between double quotes, then the rest. *)
Definition header_line (name rest : string) : string :=
  String dquote (name ++ String dquote rest)%string.

(** The scenario of the specification. *)
Definition scenario_document : string :=
  document [header_line "Thread-1" " nid=0x1";
            "   java.lang.Thread.State: RUNNABLE";
            "   at com.example.Foo.bar(Foo.java:10)"].

(** A blocked thread of which the dump names no lock. *)
Definition blocked_document : string :=
  document [header_line "T" " nid=7";
            "   java.lang.Thread.State: BLOCKED"].

(** A thread whose state token is the name of a property that every object
    inherits. *)
Definition inherited_status_document : string :=
  document [header_line "T" " nid=7";
            "   java.lang.Thread.State: constructor"].

(** A thread whose wait-target is reassigned. *)
Definition rewait_document : string :=
  document [header_line "T" " nid=7";
            "   - waiting on <0x1> (a A)";
            "   - waiting to lock <0x2> (a B)"].


(** A wait record before the ['locked'] record for the same lock. *)
Definition wait_then_locked_document : string :=
  document [header_line "T" " nid=7";
            "   - waiting on <0x1> (a A)";
            "   - locked <0x1> (a A)"].

(** Two threads with a ['locked'] record for one lock; the first one waits
    and the dump does not say for what. *)
Definition two_owners_document : string :=
  document [header_line "A" " nid=1";
            "   java.lang.Thread.State: WAITING (on object monitor)";
            "   - locked <0x1> (a A)";
            header_line "B" " nid=2";
            "   - locked <0x1> (a A)"].

(** A waiting thread that has taken one lock twice; the dump does not say
    what it waits for. *)
Definition reentrant_document : string :=
  document [header_line "T" " nid=7";
            "   java.lang.Thread.State: WAITING (on object monitor)";
            "   - locked <0x1> (a A)";
            "   - locked <0x1> (a A)"].

(** A document with a record before any thread header. *)
Definition preamble_document : string :=
  document ["   - locked <0x1> (a A)"].

(** The state after a header and a wait record. *)
Definition waiting_state : ThreadDump.t * Proc :=
  parseLines [header_line "T" " nid=7"; "   - waiting on <0x1> (a A)"]
    ThreadDump.new fresh.


(** The state a call leaves, for the calls that return. *)
Definition state_after (fileName text : string) (p : Proc) : Proc :=
  match parseThreadDump fileName text p with
  | inr (_, p') => p'
  | inl _ => p
  end.

(** The state before the last line of the document of the two owners. *)
Definition second_owner_state : ThreadDump.t * Proc :=
  parseLines [header_line "A" " nid=1";
              "   java.lang.Thread.State: WAITING (on object monitor)";
              "   - locked <0x1> (a A)";
              header_line "B" " nid=2"]
    ThreadDump.new fresh.






(** A later document: its first line is a frame, read before any header of
    this document. *)
Definition later_document : string :=
  document ["   at a.B.c(B.java:1)";
            header_line "C" " nid=3";
            "   - waiting on <0x1> (a A)"].
(** ** Notions for the further properties *)

(** The capturing groups of a pattern, in their order. *)
Fixpoint groups_of (r : regexp) : list (cset * quant) :=
  match r with
  | [] => []
  | Cap a q :: r' => (a, q) :: groups_of r'
  | _ :: r' => groups_of r'
  end.

(** The text of a group is made of characters of its class, and is not
    empty when the quantifier asks for one character at least. *)
Definition group_text_ok (text : string) (g : cset * quant) : Prop :=
  all_in (accepts g.1) text = true
  /\ (g.2 = Plus \/ g.2 = One -> text <> EmptyString).

(** The string is empty or starts with a character outside the class: a
    repetition of the class cannot go on. *)
Definition stops (p : ascii -> bool) (s : string) : bool :=
  match s with
  | EmptyString => true
  | String c _ => negb (p c)
  end.

(** [.] *)
Definition is_dot (c : ascii) : bool := negb (Str.is_line_terminator c).

(** No suffix of [pre ++ rest] that starts inside [pre] starts with [pat]. *)
Fixpoint not_before (pat pre rest : string) : bool :=
  match pre with
  | EmptyString => true
  | String c pre' =>
      negb (String.prefix pat (pre ++ rest)%string) && not_before pat pre' rest
  end.

(** The character does not occur in the string. *)
Fixpoint lacks (c : ascii) (s : string) : bool :=
  match s with
  | EmptyString => true
  | String c' s' => negb (bool_decide (c' = c)) && lacks c s'
  end.

(** The class of the group of [NID_PATTERN]. *)
Definition nid_class : cset := Set_ [("0", "9"); ("a", "f")]%char ["x"; ","]%char.

(** A header line as the concatenation of its pieces: a quoted name, some
    text, the token [ nid=...] and the rest. *)
Definition header_text (name mid tok tail : string) : string :=
  String dquote (name ++ String dquote (mid ++ " nid=" ++ tok ++ tail))%string.

(** [line.startsWith(THREAD_HEADER_PREFIX)] *)
Definition is_header (line : string) : bool :=
  Str.startsWith line THREAD_HEADER_PREFIX.

(** The objects a sequence of lines allocates: the threads and the locks of
    the dump are extended by the new addresses, in their order. *)
Definition extends_by (d : ThreadDump.t) (p : Proc) (d' : ThreadDump.t) (p' : Proc)
    (k m : nat) : Prop :=
  ThreadDump.threads d' = ThreadDump.threads d ++ seq (length (thread_store p)) k
  /\ length (thread_store p') = length (thread_store p) + k
  /\ ThreadDump.locks d' = ThreadDump.locks d ++ seq (length (lock_store p)) m
  /\ length (lock_store p') = length (lock_store p) + m.

(** The owner and the waiting threads of a lock are objects. *)
Definition lock_refs_ok (p : Proc) : Prop :=
  forall l lk t, get_lock p l = Some lk ->
    Lock.owner lk = Some t \/ t ∈ Lock.waiting lk -> is_Some (get_thread p t).

(** Every reference between the objects is the address of an object. *)
Definition refs_ok (p : Proc) : Prop :=
  store_ok p /\ held_ok p /\ lock_refs_ok p.

(** The dump has every object of the process: its threads and its locks
    are all the threads and all the locks, so that every lock a thread holds
    or waits for is a lock of the dump, and the owner and the waiting threads
    of every lock are threads of the dump. *)
Definition dump_closed (d : ThreadDump.t) (p : Proc) : Prop :=
  (forall t th, get_thread p t = Some th ->
     t ∈ ThreadDump.threads d
     /\ forall l, l ∈ Thread.locksHeld th \/ l ∈ Thread.classicalLocksHeld th
                  \/ Thread.lockWaitingFor th = Some l ->
          l ∈ ThreadDump.locks d)
  /\ (forall l lk, get_lock p l = Some lk ->
        l ∈ ThreadDump.locks d
        /\ forall t, Lock.owner lk = Some t \/ t ∈ Lock.waiting lk ->
             t ∈ ThreadDump.threads d).

(** No two locks of the dump have the same id. *)
Definition ids_distinct (d : ThreadDump.t) (p : Proc) : Prop :=
  forall i j li lj lki lkj,
    ThreadDump.locks d !! i = Some li -> ThreadDump.locks d !! j = Some lj ->
    get_lock p li = Some lki -> get_lock p lj = Some lkj ->
    Lock.id lki = Lock.id lkj -> i = j.

(** The classical held locks of a thread are, in their order, among its
    held locks. *)
Definition classical_in_held (p : Proc) : Prop :=
  forall t th, get_thread p t = Some th ->
    sublist (Thread.classicalLocksHeld th) (Thread.locksHeld th).

(** The thread is one the resolver works on (lines 131-132). *)
Definition selected (p : Proc) (t : thread_ref) : bool :=
  no_wait_target p t && has_valid_status p t.

(** The dump a call returns, for the calls that return. *)
Definition dump_after (fileName text : string) (p : Proc) : ThreadDump.t :=
  match parseThreadDump fileName text p with
  | inr (d, _) => d
  | inl _ => ThreadDump.new
  end.

(** The locks of before are there after, with their ids. *)
Definition ids_kept (p p' : Proc) : Prop :=
  forall l lk, get_lock p l = Some lk ->
    exists lk', get_lock p' l = Some lk' /\ Lock.id lk' = Lock.id lk.

(** What a call never takes back: a thread keeps its id, its name and the
    frames it has, a lock keeps its id, its class name and the threads that
    wait for it. *)
Definition keeps_records (p p' : Proc) : Prop :=
  (forall t th, get_thread p t = Some th ->
     exists th', get_thread p' t = Some th'
       /\ Thread.id th' = Thread.id th /\ Thread.name th' = Thread.name th
       /\ Thread.stackTrace th `prefix_of` Thread.stackTrace th')
  /\ (forall l lk, get_lock p l = Some lk ->
        exists lk', get_lock p' l = Some lk'
          /\ Lock.id lk' = Lock.id lk /\ Lock.className lk' = Lock.className lk
          /\ Lock.waiting lk `prefix_of` Lock.waiting lk').

(** The state after the resolver has run on the state before the last line
    of the document of the two owners. *)
Definition second_owner_resolved : Proc :=
  match identifyAnonymousSynchronizers [0; 1] second_owner_state.2 with
  | inr q => q
  | inl _ => second_owner_state.2
  end.


(** The state after the lines of the document of the lock taken twice. *)
Definition reentrant_state : Proc :=
  state_after_lines "dump.txt" reentrant_document fresh.
(** * Properties *)

(** ** The matcher *)

Section MatcherFacts.
Context {R : Type}.
Variable p : ascii -> bool.
Variable k : string -> nat -> string -> option R.
Local Abbreviation all_in := (all_in p).

(** A repetition that succeeds consumed a prefix of characters of the class
    and the rest of the pattern matched what remains. *)
Lemma greedy_inv s : forall n acc r,
  greedy p k s n acc = Some r ->
  exists s1 s2, s = (s1 ++ s2)%string /\ all_in s1 = true
                /\ k s2 (n + String.length s1) (Str.rev_app s1 acc) = Some r.
Proof.
  induction s as [|c s IH]; intros n acc r H; simpl in H.
  - exists EmptyString, EmptyString. simpl. rewrite Nat.add_0_r. auto.
  - destruct (p c) eqn:Hc.
    + destruct (greedy p k s (S n) (String c acc)) as [r'|] eqn:Hg.
      * inversion H; subst r'. apply IH in Hg as (s1 & s2 & -> & Hall & Hk).
        exists (String c s1), s2. simpl. rewrite Hc, Hall.
        replace (n + S (String.length s1)) with (S n + String.length s1) by lia.
        auto.
      * exists EmptyString, (String c s). simpl. rewrite Nat.add_0_r. auto.
    + exists EmptyString, (String c s). simpl. rewrite Nat.add_0_r. auto.
Qed.

Lemma lazy_inv s : forall n acc r,
  lazy p k s n acc = Some r ->
  exists s1 s2, s = (s1 ++ s2)%string /\ all_in s1 = true
                /\ k s2 (n + String.length s1) (Str.rev_app s1 acc) = Some r.
Proof.
  induction s as [|c s IH]; intros n acc r H; simpl in H.
  - exists EmptyString, EmptyString. simpl. rewrite Nat.add_0_r.
    destruct (k EmptyString n acc); [auto | discriminate].
  - destruct (k (String c s) n acc) as [r'|] eqn:Hk.
    + exists EmptyString, (String c s). simpl. rewrite Nat.add_0_r.
      inversion H; subst. auto.
    + destruct (p c) eqn:Hc; [|discriminate].
      apply IH in H as (s1 & s2 & -> & Hall & Hk').
      exists (String c s1), s2. simpl. rewrite Hc, Hall.
      replace (n + S (String.length s1)) with (S n + String.length s1) by lia.
      auto.
Qed.

(** The same for every quantifier. *)
Lemma quantified_inv q s r :
  quantified p k q s = Some r ->
  exists s1 s2, s = (s1 ++ s2)%string /\ all_in s1 = true
                /\ k s2 (String.length s1) (Str.rev_app s1 EmptyString) = Some r.
Proof.
  destruct q; simpl; unfold one.
  - destruct s as [|c s]; [discriminate|].
    destruct (p c) eqn:Hc; [|discriminate]. intros H.
    exists (String c EmptyString), s. simpl. rewrite Hc. auto.
  - destruct s as [|c s].
    + intros H. exists EmptyString, EmptyString. auto.
    + destruct (p c) eqn:Hc.
      * destruct (k s 1 (String c EmptyString)) eqn:Hk.
        -- intros H; inversion H; subst.
           exists (String c EmptyString), s. simpl. rewrite Hc. auto.
        -- intros H. exists EmptyString, (String c s). auto.
      * intros H. exists EmptyString, (String c s). auto.
  - intros H. apply greedy_inv in H. exact H.
  - destruct s as [|c s]; [discriminate|].
    destruct (p c) eqn:Hc; [|discriminate]. intros H.
    apply greedy_inv in H as (s1 & s2 & -> & Hall & Hk).
    exists (String c s1), s2. simpl. rewrite Hc, Hall. auto.
  - intros H. apply lazy_inv in H. exact H.
Qed.

(** With [+] the consumed prefix is not empty. *)
Lemma plus_inv s r :
  quantified p k Plus s = Some r ->
  exists c s', s = String c s' /\ p c = true.
Proof.
  simpl. destruct s as [|c s]; [discriminate|].
  destruct (p c) eqn:Hc; [|discriminate]. eauto.
Qed.
End MatcherFacts.

Lemma drop_while_all_in p s1 c s2 :
  all_in p s1 = true -> p c = false ->
  Str.drop_while p (s1 ++ String c s2)%string = String c s2.
Proof.
  induction s1 as [|a s1 IH]; simpl; intros Hall Hc.
  - now rewrite Hc.
  - apply andb_prop in Hall as [Ha Hall]. rewrite Ha. auto.
Qed.

(** A pattern anchored at the start matches at offset 0 or not at all. *)
Lemma search_Bol r s : forall n, search (Bol :: r) (S n) s = None.
Proof. induction s as [|c s IH]; intros n; simpl; auto. Qed.

Lemma exec_Bol r s caps :
  exec (Bol :: r) s = Some caps -> run r 0 s [] = Some caps.
Proof.
  unfold exec. destruct s as [|c s]; simpl.
  - destruct (run r 0 EmptyString []); congruence.
  - destruct (run r 0 (String c s) []); [congruence|].
    now rewrite search_Bol.
Qed.

(** A line that matches [^], white space and then the character [c0] has
    [c0] as its first character after the leading white space. *)
Lemma lead_of_match q c0 r s caps :
  Str.is_space c0 = false ->
  exec (Bol :: Atom Space q :: Atom (Chr c0) One :: r) s = Some caps ->
  lead s = Some c0.
Proof.
  intros Hc0 H. apply exec_Bol in H. cbn [run] in H.
  apply quantified_inv in H as (s1 & s2 & -> & Hall & Hk).
  cbn [run quantified] in Hk. unfold one in Hk.
  destruct s2 as [|c s2]; [discriminate|]. cbn [accepts] in Hk.
  destruct (bool_decide (c = c0)) eqn:Hc; [|discriminate].
  apply bool_decide_eq_true in Hc as ->.
  unfold lead. now rewrite (drop_while_all_in _ _ _ _ Hall Hc0).
Qed.

(** With [\s+] the line starts with a white space character. *)
Lemma space_first_of_match r s caps :
  exec (Bol :: Atom Space Plus :: r) s = Some caps ->
  exists c s', s = String c s' /\ Str.is_space c = true.
Proof.
  intros H. apply exec_Bol in H. cbn [run] in H.
  apply plus_inv in H. exact H.
Qed.

Lemma matchOne_no_match line r : exec r line = None -> matchOne line r = EmptyString.
Proof. unfold matchOne. now intros ->. Qed.

Lemma matchMultipleGroups_exec line r c cs :
  matchMultipleGroups line r = c :: cs -> exec r line = Some (c :: cs).
Proof.
  unfold matchMultipleGroups. destruct (exec r line); [congruence | discriminate].
Qed.

(** What the first character after the white space says about the patterns. *)
Lemma lead_frame line caps :
  exec FRAME_PATTERN line = Some caps -> lead line = Some "a"%char.
Proof. apply lead_of_match. reflexivity. Qed.

Lemma lead_state line caps :
  exec THREAD_STATE_PATTERN line = Some caps -> lead line = Some "j"%char.
Proof. apply lead_of_match. reflexivity. Qed.

Lemma lead_sync line caps :
  exec SYNCHRONIZATION_STATUS_PATTERN line = Some caps -> lead line = Some "-"%char.
Proof. apply lead_of_match. reflexivity. Qed.


(** A line whose first character after the white space is [-] is neither a
    stack frame nor a thread state. *)
Lemma dash_not_frame line :
  lead line = Some "-"%char -> matchOne line FRAME_PATTERN = EmptyString.
Proof.
  intros Hl. apply matchOne_no_match.
  destruct (exec FRAME_PATTERN line) eqn:E; [|reflexivity].
  apply lead_frame in E. congruence.
Qed.

Lemma dash_not_state line :
  lead line = Some "-"%char -> matchOne line THREAD_STATE_PATTERN = EmptyString.
Proof.
  intros Hl. apply matchOne_no_match.
  destruct (exec THREAD_STATE_PATTERN line) eqn:E; [|reflexivity].
  apply lead_state in E. congruence.
Qed.

(** A line that starts with white space is not empty and not a header. *)
Lemma space_first_not_header c s :
  Str.is_space c = true ->
  Str.startsWith (String c s) THREAD_HEADER_PREFIX = false /\ truthy (String c s) = true.
Proof.
  intros Hc. split; [|reflexivity].
  unfold Str.startsWith, THREAD_HEADER_PREFIX.
  change (String.prefix (String dquote EmptyString) (String c s))
    with (if ascii_dec dquote c then String.prefix EmptyString s else false).
  destruct (ascii_dec dquote c) as [<-|]; [|reflexivity].
  vm_compute in Hc. discriminate Hc.
Qed.

(** ** Lines and actions *)

Lemma parseStackLine_perform line d p t :
  currentThread p = Some t ->
  parseStackLine line d p = perform (stack_action_of line t) d p.
Proof.
  intros Ht. unfold parseStackLine, stack_action_of, sync_of, held_of. rewrite Ht.
  destruct (truthy (matchOne line FRAME_PATTERN)); [reflexivity|].
  destruct (truthy (matchOne line THREAD_STATE_PATTERN)); [reflexivity|].
  destruct (matchMultipleGroups line SYNCHRONIZATION_STATUS_PATTERN)
    as [|state [|lockId [|className [|x xs]]]].
  1-3, 5:
    destruct (matchMultipleGroups line HELD_LOCK_PATTERN) as [|i [|c [|y ys]]];
    try reflexivity;
    destruct (truthy (matchOne line LOCKED_OWNABLE_SYNCHRONIZERS_PATTERN)
              || truthy (matchOne line NONE_HELD_PATTERN)
              || truthy (matchOne line JNI_REFERENCES_PATTERN)); reflexivity.
  destruct (is_wait_verb state); [reflexivity|].
  destruct (bool_decide (state = "locked")); [reflexivity|].
  destruct (bool_decide (state = "eliminated")); reflexivity.
Qed.

Lemma parseLine_perform line d p :
  parseLine line d p = perform (action_of line p) d p.
Proof.
  unfold parseLine, action_of.
  destruct (Str.startsWith line THREAD_HEADER_PREFIX); [reflexivity|].
  destruct (truthy line); [|reflexivity].
  destruct (currentThread p) as [t|] eqn:Ht.
  - now apply parseStackLine_perform.
  - unfold parseStackLine. now rewrite Ht.
Qed.

(** A synchronization-status record is handled by its verb, whatever else
    the line has. *)
Lemma sync_line_facts line state lockId className :
  sync_of line = [state; lockId; className] ->
  Str.startsWith line THREAD_HEADER_PREFIX = false /\ truthy line = true
  /\ matchOne line FRAME_PATTERN = EmptyString /\ matchOne line THREAD_STATE_PATTERN = EmptyString.
Proof.
  intros H. apply matchMultipleGroups_exec in H.
  pose proof (lead_sync _ _ H) as Hl.
  destruct (space_first_of_match _ _ _ H) as (c & s & -> & Hc).
  destruct (space_first_not_header c s Hc) as [H1 H2].
  auto using dash_not_frame, dash_not_state.
Qed.


Lemma action_of_sync line p t state lockId className :
  currentThread p = Some t ->
  sync_of line = [state; lockId; className] ->
  action_of line p =
    if is_wait_verb state then Wait t lockId className
    else if bool_decide (state = "locked") then Locked t lockId className
    else if bool_decide (state = "eliminated") then Skip
    else Warn ("Unknown synchronziation status: " ++ line).
Proof.
  intros Ht Hs. destruct (sync_line_facts _ _ _ _ Hs) as (H1 & H2 & H3 & H4).
  unfold action_of, stack_action_of. now rewrite H1, H2, Ht, H3, H4, Hs.
Qed.


(** ** The store *)

Lemma alter_at_end {A} (f : A -> A) (l : list A) x :
  alter f (length l) (l ++ [x]) = l ++ [f x].
Proof. induction l as [|a l IH]; simpl; [reflexivity | f_equal; exact IH]. Qed.

Lemma lookup_snoc {A} (l : list A) x i y :
  (l ++ [x]) !! i = Some y -> l !! i = Some y \/ (i = length l /\ y = x).
Proof.
  intros H. destruct (decide (i < length l)) as [Hlt|Hge].
  - left. now rewrite lookup_app_l in H.
  - right. rewrite lookup_app_r in H by lia.
    destruct (i - length l) as [|n] eqn:E; simpl in H; [|discriminate].
    split; [lia | congruence].
Qed.

Lemma get_thread_upd_thread_eq t f p :
  get_thread (upd_thread t f p) t = f <$> get_thread p t.
Proof. apply list_lookup_alter_eq. Qed.

Lemma get_thread_upd_thread_ne t t' f p :
  t <> t' -> get_thread (upd_thread t f p) t' = get_thread p t'.
Proof. intros. now apply list_lookup_alter_ne. Qed.

Lemma get_lock_upd_lock_eq l f p :
  get_lock (upd_lock l f p) l = f <$> get_lock p l.
Proof. apply list_lookup_alter_eq. Qed.

Lemma get_lock_upd_lock_ne l l' f p :
  l <> l' -> get_lock (upd_lock l f p) l' = get_lock p l'.
Proof. intros. now apply list_lookup_alter_ne. Qed.

Lemma get_lock_upd_thread t f p l : get_lock (upd_thread t f p) l = get_lock p l.
Proof. reflexivity. Qed.


(** ** The lock registry *)

Lemma find_lock_Some p locks id l :
  find_lock p locks id = Some l ->
  l ∈ locks /\ exists lk, get_lock p l = Some lk /\ Lock.id lk = id.
Proof.
  induction locks as [|x locks IH]; simpl; [discriminate|].
  destruct (get_lock p x) as [lk|] eqn:Hx.
  - destruct (bool_decide (Lock.id lk = id)) eqn:Hid.
    + intros [= <-]. apply bool_decide_eq_true in Hid.
      split; [left | eauto].
    + intros H. apply IH in H as [? ?]. split; [now right | done].
  - intros H. apply IH in H as [? ?]. split; [now right | done].
Qed.

Lemma find_lock_None p locks id l lk :
  find_lock p locks id = None -> l ∈ locks -> get_lock p l = Some lk ->
  Lock.id lk <> id.
Proof.
  induction locks as [|x locks IH]; simpl; intros Hf Hin Hl.
  - inversion Hin.
  - destruct (get_lock p x) as [lkx|] eqn:Hx.
    + destruct (bool_decide (Lock.id lkx = id)) eqn:Hid; [discriminate|].
      apply bool_decide_eq_false in Hid.
      apply elem_of_cons in Hin as [->|Hin]; [congruence | eauto].
    + apply elem_of_cons in Hin as [->|Hin]; [congruence | eauto].
Qed.

(** The lock found is the first one of the list with that id. *)
Lemma find_lock_first p locks id l :
  find_lock p locks id = Some l -> first_with_id p locks id l.
Proof.
  induction locks as [|x locks IH]; simpl; [discriminate|].
  destruct (get_lock p x) as [lk|] eqn:Hx.
  - destruct (bool_decide (Lock.id lk = id)) eqn:Hid.
    + intros [= <-]. apply bool_decide_eq_true in Hid.
      exists 0, lk. repeat split; auto. intros; lia.
    + apply bool_decide_eq_false in Hid.
      intros H. apply IH in H as (i & lk' & Hi & Hl & Hlid & Hbefore).
      exists (S i), lk'. repeat split; auto.
      intros [|j] l' lk'' Hj Hlk Hg; simpl in Hlk.
      * injection Hlk as <-. congruence.
      * apply (Hbefore j l' lk''); [lia | done | done].
  - intros H. apply IH in H as (i & lk' & Hi & Hl & Hlid & Hbefore).
    exists (S i), lk'. repeat split; auto.
    intros [|j] l' lk'' Hj Hlk Hg; simpl in Hlk.
    + injection Hlk as <-. congruence.
    + apply (Hbefore j l' lk''); [lia | done | done].
Qed.

(** The search depends on the ids of the listed locks only. *)
Lemma find_lock_ext p p' locks id :
  (forall l, l ∈ locks ->
     exists lk lk', get_lock p l = Some lk /\ get_lock p' l = Some lk'
                    /\ Lock.id lk' = Lock.id lk) ->
  find_lock p' locks id = find_lock p locks id.
Proof.
  induction locks as [|x locks IH]; simpl; intros H; [reflexivity|].
  destruct (H x) as (lk & lk' & -> & -> & ->); [left|].
  rewrite IH; [reflexivity|]. intros l Hl. apply H. now right.
Qed.

Lemma find_lock_app_l p locks more id l :
  find_lock p locks id = Some l -> find_lock p (locks ++ more) id = Some l.
Proof.
  induction locks as [|x locks IH]; simpl; [discriminate|].
  destruct (get_lock p x) as [lk|]; [|auto].
  destruct (bool_decide (Lock.id lk = id)); auto.
Qed.

Lemma find_lock_app_r p locks more id :
  find_lock p locks id = None ->
  find_lock p (locks ++ more) id = find_lock p more id.
Proof.
  induction locks as [|x locks IH]; simpl; [reflexivity|].
  destruct (get_lock p x) as [lk|]; [|auto].
  destruct (bool_decide (Lock.id lk = id)); [discriminate | auto].
Qed.

(** The two outcomes of [getOrCreateLock]. *)
Lemma getOrCreateLock_found locks id className p l :
  find_lock p locks id = Some l ->
  getOrCreateLock locks id className p = (l, locks, p).
Proof. unfold getOrCreateLock. now intros ->. Qed.

Lemma getOrCreateLock_new locks id className p :
  find_lock p locks id = None ->
  getOrCreateLock locks id className p =
    (length (lock_store p), locks ++ [length (lock_store p)],
     mkProc (thread_store p)
            (lock_store p ++ [Lock.mk id className None []])
            (currentThread p) (console p)).
Proof.
  unfold getOrCreateLock. intros ->. unfold alloc_lock, upd_lock. cbn [lock_store thread_store currentThread console].
  now rewrite !alter_at_end.
Qed.

Section GetOrCreate.
Variables (locks : list lock_ref) (id className : string) (p : Proc).
Variables (l : lock_ref) (locks' : list lock_ref) (p1 : Proc).
Hypothesis Hcall : getOrCreateLock locks id className p = (l, locks', p1).

(** Either the lock was there, or it is the new object at the end of the
    store and of the list. *)
Lemma getOrCreateLock_cases :
  (find_lock p locks id = Some l /\ locks' = locks /\ p1 = p)
  \/ (find_lock p locks id = None /\ l = length (lock_store p)
      /\ locks' = locks ++ [l]
      /\ p1 = mkProc (thread_store p)
                     (lock_store p ++ [Lock.mk id className None []])
                     (currentThread p) (console p)).
Proof.
  destruct (find_lock p locks id) as [l0|] eqn:Hf.
  - rewrite (getOrCreateLock_found _ _ _ _ _ Hf) in Hcall.
    injection Hcall as <- <- <-. auto.
  - rewrite (getOrCreateLock_new _ _ _ _ Hf) in Hcall.
    injection Hcall as <- <- <-. right. auto.
Qed.

Lemma getOrCreateLock_threads t : get_thread p1 t = get_thread p t.
Proof. destruct getOrCreateLock_cases as [(_ & _ & ->)|(_ & _ & _ & ->)]; reflexivity. Qed.

Lemma getOrCreateLock_cursor : currentThread p1 = currentThread p.
Proof. destruct getOrCreateLock_cases as [(_ & _ & ->)|(_ & _ & _ & ->)]; reflexivity. Qed.

(** The locks of before are unchanged. *)
Lemma getOrCreateLock_old l' lk' :
  get_lock p l' = Some lk' -> get_lock p1 l' = Some lk'.
Proof.
  destruct getOrCreateLock_cases as [(_ & _ & ->)|(_ & _ & _ & ->)]; [auto|].
  unfold get_lock. cbn [lock_store]. apply lookup_app_l_Some.
Qed.

(** A lock of after is a lock of before or the new one. *)
Lemma getOrCreateLock_inv l' lk' :
  get_lock p1 l' = Some lk' ->
  get_lock p l' = Some lk'
  \/ (l' = l /\ lk' = Lock.mk id className None [] /\ get_lock p l' = None
      /\ find_lock p locks id = None).
Proof.
  destruct getOrCreateLock_cases as [(_ & _ & ->)|(Hf & -> & _ & ->)]; [auto|].
  unfold get_lock. cbn [lock_store]. intros H.
  apply lookup_snoc in H as [H|[-> ->]]; [auto|].
  right. repeat split; auto. apply lookup_ge_None. lia.
Qed.

(** The lock returned is an object with that id. *)
Lemma getOrCreateLock_lock :
  exists lk, get_lock p1 l = Some lk /\ Lock.id lk = id.
Proof.
  destruct getOrCreateLock_cases as [(Hf & _ & ->)|(Hf & -> & _ & ->)].
  - apply find_lock_Some in Hf as [_ H]. exact H.
  - exists (Lock.mk id className None []). split; [|reflexivity].
    unfold get_lock. cbn [lock_store].
    rewrite lookup_app_r by lia. now rewrite Nat.sub_diag.
Qed.

Lemma getOrCreateLock_locks_list l' :
  l' ∈ locks' <-> l' ∈ locks \/ (l' = l /\ find_lock p locks id = None).
Proof.
  destruct getOrCreateLock_cases as [(Hf & -> & _)|(Hf & Hl & -> & _)].
  - split; [auto|]. intros [H|[_ H]]; [done | congruence].
  - rewrite elem_of_app, list_elem_of_singleton. split.
    + intros [H|H]; auto.
    + intros [H|[H _]]; auto.
Qed.

(** The locks of the dump stay objects. *)
Lemma getOrCreateLock_dump_ok d :
  ThreadDump.locks d = locks -> dump_ok d p ->
  dump_ok (ThreadDump.set_locks locks' d) p1.
Proof.
  intros Hd Hok l' Hl'. cbn [ThreadDump.set_locks ThreadDump.locks] in Hl'.
  apply getOrCreateLock_locks_list in Hl' as [Hl'|[Heq _]].
  - rewrite <- Hd in Hl'. destruct (Hok _ Hl') as [lk Hlk].
    exists lk. now apply getOrCreateLock_old.
  - destruct getOrCreateLock_lock as (lk & Hlk & _). exists lk. now rewrite Heq.
Qed.

(** A later search for the id in the list of after finds the lock. *)
Lemma getOrCreateLock_find :
  (forall l', l' ∈ locks -> is_Some (get_lock p l')) ->
  find_lock p1 locks' id = Some l.
Proof.
  intros Hok.
  pose proof getOrCreateLock_old as Hold.
  destruct getOrCreateLock_lock as (lk0 & Hlk0 & Hid).
  destruct getOrCreateLock_cases as [(Hf & -> & ->)|(Hf & Hl & -> & Hp1)]; [done|].
  assert (find_lock p1 locks id = None) as Hf1.
  { rewrite <- Hf. apply find_lock_ext. intros l' Hl'.
    destruct (Hok _ Hl') as [lk Hlk]. exists lk, lk.
    repeat split; auto. }
  rewrite (find_lock_app_r _ _ _ _ Hf1). simpl.
  rewrite Hlk0. now rewrite bool_decide_eq_true_2.
Qed.
End GetOrCreate.

(** ** Writes *)

Lemma upd_thread_upd_thread t f1 f2 p :
  upd_thread t f2 (upd_thread t f1 p) = upd_thread t (f2 ∘ f1) p.
Proof. unfold upd_thread. cbn. f_equal. apply list_alter_alter_eq. Qed.

Lemma upd_lock_upd_lock l g1 g2 p :
  upd_lock l g2 (upd_lock l g1 p) = upd_lock l (g2 ∘ g1) p.
Proof. unfold upd_lock. cbn. f_equal. apply list_alter_alter_eq. Qed.

Lemma upd_lock_id l p : upd_lock l (fun lk => lk) p = p.
Proof. destruct p. unfold upd_lock. cbn. f_equal. now apply list_alter_id. Qed.

Section Touch.
Variables (t : thread_ref) (f : Thread.t -> Thread.t).
Variables (l : lock_ref) (g : Lock.t -> Lock.t) (p : Proc).

Lemma touch_get_thread t' :
  get_thread (touch t f l g p) t' =
    if decide (t = t') then f <$> get_thread p t else get_thread p t'.
Proof.
  unfold touch. destruct (decide (t = t')) as [<-|Hne].
  - now rewrite get_thread_upd_thread_eq.
  - now rewrite get_thread_upd_thread_ne.
Qed.

Lemma touch_get_lock l' :
  get_lock (touch t f l g p) l' =
    if decide (l = l') then g <$> get_lock p l else get_lock p l'.
Proof.
  unfold touch. rewrite get_lock_upd_thread. destruct (decide (l = l')) as [<-|Hne].
  - now rewrite get_lock_upd_lock_eq.
  - now rewrite get_lock_upd_lock_ne.
Qed.

Lemma touch_cursor : currentThread (touch t f l g p) = currentThread p.
Proof. reflexivity. Qed.

(** A thread of after is a thread of before, written to if it is [t]. *)
Lemma touch_thread_inv t' th' :
  get_thread (touch t f l g p) t' = Some th' ->
  exists th, get_thread p t' = Some th /\ (th' = th \/ (t' = t /\ th' = f th)).
Proof.
  rewrite touch_get_thread. destruct (decide (t = t')) as [<-|Hne].
  - destruct (get_thread p t) as [th|]; [|discriminate]. intros [= <-]. eauto.
  - eauto.
Qed.

Lemma touch_lock_inv l' lk' :
  get_lock (touch t f l g p) l' = Some lk' ->
  exists lk, get_lock p l' = Some lk /\ (lk' = lk \/ (l' = l /\ lk' = g lk)).
Proof.
  rewrite touch_get_lock. destruct (decide (l = l')) as [<-|Hne].
  - destruct (get_lock p l) as [lk|]; [|discriminate]. intros [= <-]. eauto.
  - eauto.
Qed.

Lemma touch_thread_fwd t' th :
  get_thread p t' = Some th ->
  exists th', get_thread (touch t f l g p) t' = Some th'
              /\ ((t' <> t /\ th' = th) \/ (t' = t /\ th' = f th)).
Proof.
  intros H. rewrite touch_get_thread. destruct (decide (t = t')) as [<-|Hne].
  - rewrite H. eauto.
  - eauto.
Qed.

Lemma touch_lock_fwd l' lk :
  get_lock p l' = Some lk ->
  exists lk', get_lock (touch t f l g p) l' = Some lk'
              /\ ((l' <> l /\ lk' = lk) \/ (l' = l /\ lk' = g lk)).
Proof.
  intros H. rewrite touch_get_lock. destruct (decide (l = l')) as [<-|Hne].
  - rewrite H. eauto.
  - eauto.
Qed.

(** The write keeps the store in order when the wait-target and the
    classical locks it gives the thread are the old ones or [l]. *)
Lemma touch_store_ok :
  store_ok p ->
  (forall th, get_thread p t = Some th ->
     (Thread.lockWaitingFor (f th) = Thread.lockWaitingFor th
      \/ (Thread.lockWaitingFor (f th) = Some l /\ is_Some (get_lock p l)))
     /\ (forall x, x ∈ Thread.classicalLocksHeld (f th) ->
           x ∈ Thread.classicalLocksHeld th \/ (x = l /\ is_Some (get_lock p l)))) ->
  store_ok (touch t f l g p).
Proof.
  intros (Hcur & Htgt & Hcl) Hf.
  assert (forall x, is_Some (get_lock p x) -> is_Some (get_lock (touch t f l g p) x))
    as Hkeep.
  { intros x [lk Hx]. destruct (touch_lock_fwd _ _ Hx) as (lk' & -> & _). eauto. }
  split; [|split].
  - intros t' Ht'. rewrite touch_cursor in Ht'. destruct (Hcur _ Ht') as [th Hth].
    destruct (touch_thread_fwd _ _ Hth) as (th' & -> & _). eauto.
  - intros t' th' x Hth' Hx. apply Hkeep.
    destruct (touch_thread_inv _ _ Hth') as (th & Hth & [->|[-> ->]]); [eauto|].
    destruct (Hf _ Hth) as [[Heq|[Heq Hl]] _].
    + rewrite Heq in Hx. eauto.
    + rewrite Heq in Hx. now injection Hx as <-.
  - intros t' th' x Hth' Hx. apply Hkeep.
    destruct (touch_thread_inv _ _ Hth') as (th & Hth & [->|[-> ->]]); [eauto|].
    destruct (Hf _ Hth) as [_ Hc]. destruct (Hc _ Hx) as [Hx'|[-> Hl]]; eauto.
Qed.



(** The write is a step of the evolution when it keeps the id and the class
    name of the lock and the held locks of the thread. *)
Lemma touch_evolves :
  (forall lk, Lock.id (g lk) = Lock.id lk /\ Lock.className (g lk) = Lock.className lk) ->
  (forall th x, x ∈ Thread.locksHeld th -> x ∈ Thread.locksHeld (f th)) ->
  evolves p (touch t f l g p).
Proof.
  intros Hg Hf. split.
  - intros l' lk Hlk. destruct (touch_lock_fwd _ _ Hlk) as (lk' & -> & [[_ ->]|[_ ->]]).
    + eauto.
    + destruct (Hg lk). eauto.
  - intros t' th Hth. destruct (touch_thread_fwd _ _ Hth) as (th' & -> & [[_ ->]|[_ ->]]);
      eauto.
Qed.
End Touch.

(** ** The records and the resolver as writes *)

Lemma record_wait_touch t lockId className d p l locks p1 :
  getOrCreateLock (ThreadDump.locks d) lockId className p = (l, locks, p1) ->
  record_wait t lockId className d p =
    (ThreadDump.set_locks locks d,
     touch t (Thread.set_lockWaitingFor (Some l)) l (Lock.push_waiting t) p1).
Proof. unfold record_wait. now intros ->. Qed.

Lemma record_locked_touch t lockId className d p l locks p1 :
  waits_for_id p t lockId = false ->
  getOrCreateLock (ThreadDump.locks d) lockId className p = (l, locks, p1) ->
  record_locked t lockId className d p =
    (ThreadDump.set_locks locks d,
     touch t (Thread.push_classicalLocksHeld l ∘ Thread.push_locksHeld l)
           l (Lock.set_owner (Some t)) p1).
Proof.
  unfold record_locked. intros -> ->. now rewrite upd_thread_upd_thread.
Qed.

Lemma record_held_touch t lockId className d p l locks p1 :
  getOrCreateLock (ThreadDump.locks d) lockId className p = (l, locks, p1) ->
  record_held t lockId className d p =
    (ThreadDump.set_locks locks d,
     touch t (Thread.push_locksHeld l) l (Lock.set_owner (Some t)) p1).
Proof. unfold record_held. now intros ->. Qed.

Lemma resolve_thread_touch t p th l :
  get_thread p t = Some th ->
  Thread.classicalLocksHeld th !! 0 = Some l ->
  resolve_thread t p = inr (touch t (resolved_thread l) l (resolved_lock t) p).
Proof.
  unfold resolve_thread. intros -> ->.
  rewrite upd_lock_upd_lock, !upd_thread_upd_thread. reflexivity.
Qed.

Lemma parseThreadHeader_eq header d p :
  parseThreadHeader header d p =
    (ThreadDump.set_threads (ThreadDump.threads d ++ [length (thread_store p)]) d,
     mkProc (thread_store p ++
               [Thread.mk (Str.parseInt10 (matchOne header NID_PATTERN))
                          (Str.trim (matchOne header NAME_PATTERN))
                          None [] [] None []])
            (lock_store p) (Some (length (thread_store p))) (console p)).
Proof.
  unfold parseThreadHeader, alloc_thread, set_currentThread, upd_thread.
  cbn [thread_store lock_store currentThread console]. now rewrite !alter_at_end.
Qed.

(** A frame and a state are writes that leave the locks alone. *)
Lemma upd_thread_touch t f p : upd_thread t f p = touch t f 0 (fun lk => lk) p.
Proof. unfold touch. now rewrite upd_lock_id. Qed.

(** ** The lock registry keeps the state in order *)

Section Registry.
Variables (locks : list lock_ref) (id className : string) (p : Proc).
Variables (l : lock_ref) (locks' : list lock_ref) (p1 : Proc).
Hypothesis Hcall : getOrCreateLock locks id className p = (l, locks', p1).

(** A lock of after has the waiting set it had before, or none. *)
Lemma getOrCreateLock_lock_inv l' lk' :
  get_lock p1 l' = Some lk' ->
  get_lock p l' = Some lk' \/ (Lock.waiting lk' = [] /\ Lock.owner lk' = None).
Proof.
  intros H. destruct (getOrCreateLock_inv _ _ _ _ _ _ _ Hcall _ _ H)
    as [|(_ & -> & _)]; auto.
Qed.

Lemma getOrCreateLock_store_ok : store_ok p -> store_ok p1.
Proof.
  intros (Hcur & Htgt & Hcl).
  assert (forall x, is_Some (get_lock p x) -> is_Some (get_lock p1 x)) as Hkeep.
  { intros x [lk Hx]. exists lk. now apply (getOrCreateLock_old _ _ _ _ _ _ _ Hcall). }
  split; [|split].
  - intros t. rewrite (getOrCreateLock_cursor _ _ _ _ _ _ _ Hcall),
      (getOrCreateLock_threads _ _ _ _ _ _ _ Hcall). apply Hcur.
  - intros t th x. rewrite (getOrCreateLock_threads _ _ _ _ _ _ _ Hcall). eauto.
  - intros t th x. rewrite (getOrCreateLock_threads _ _ _ _ _ _ _ Hcall). eauto.
Qed.




Lemma getOrCreateLock_evolves : evolves p p1.
Proof.
  split.
  - intros l' lk Hlk. exists lk. split; [|done].
    now apply (getOrCreateLock_old _ _ _ _ _ _ _ Hcall).
  - intros t th. rewrite (getOrCreateLock_threads _ _ _ _ _ _ _ Hcall). eauto.
Qed.
End Registry.

(** ** A thread header keeps the state in order *)

Section HeaderStep.
Variables (header : string) (d : ThreadDump.t) (p : Proc).

Lemma header_get_lock l : get_lock (parseThreadHeader header d p).2 l = get_lock p l.
Proof. now rewrite parseThreadHeader_eq. Qed.

Lemma header_locks :
  ThreadDump.locks (parseThreadHeader header d p).1 = ThreadDump.locks d.
Proof. now rewrite parseThreadHeader_eq. Qed.

(** A thread of after is a thread of before or the new one, which holds
    and awaits nothing. *)
Lemma header_thread_inv t th :
  get_thread (parseThreadHeader header d p).2 t = Some th ->
  get_thread p t = Some th
  \/ (t = length (thread_store p) /\ Thread.lockWaitingFor th = None
      /\ Thread.locksHeld th = [] /\ Thread.classicalLocksHeld th = []).
Proof.
  rewrite parseThreadHeader_eq. unfold get_thread. cbn [snd thread_store].
  intros H. apply lookup_snoc in H as [H|[-> ->]]; auto.
Qed.

Lemma header_thread_fwd t th :
  get_thread p t = Some th -> get_thread (parseThreadHeader header d p).2 t = Some th.
Proof.
  rewrite parseThreadHeader_eq. unfold get_thread. cbn [snd thread_store].
  apply lookup_app_l_Some.
Qed.

Lemma header_store_ok : store_ok p -> store_ok (parseThreadHeader header d p).2.
Proof.
  intros (Hcur & Htgt & Hcl). split; [|split].
  - intros t. rewrite parseThreadHeader_eq. unfold get_thread.
    cbn [snd thread_store currentThread]. intros [= <-].
    rewrite lookup_app_r by lia. rewrite Nat.sub_diag. eauto.
  - intros t th x Hth Hx. rewrite header_get_lock.
    destruct (header_thread_inv _ _ Hth) as [Hold|(_ & Hn & _)]; [eauto | congruence].
  - intros t th x Hth Hx. rewrite header_get_lock.
    destruct (header_thread_inv _ _ Hth) as [Hold|(_ & _ & _ & Hn)]; [eauto|].
    rewrite Hn in Hx. inversion Hx.
Qed.




Lemma header_evolves : evolves p (parseThreadHeader header d p).2.
Proof.
  split.
  - intros l lk Hlk. exists lk. now rewrite header_get_lock.
  - intros t th Hth. exists th. split; [|done]. now apply header_thread_fwd.
Qed.
End HeaderStep.

Lemma evolves_refl p : evolves p p.
Proof. split; eauto. Qed.

Lemma evolves_trans p1 p2 p3 : evolves p1 p2 -> evolves p2 p3 -> evolves p1 p3.
Proof.
  intros [Hl1 Ht1] [Hl2 Ht2]. split.
  - intros l lk Hlk. destruct (Hl1 _ _ Hlk) as (lk2 & Hlk2 & Hi2 & Hc2).
    destruct (Hl2 _ _ Hlk2) as (lk3 & Hlk3 & Hi3 & Hc3).
    exists lk3. repeat split; congruence.
  - intros t th Hth. destruct (Ht1 _ _ Hth) as (th2 & Hth2 & Hh2).
    destruct (Ht2 _ _ Hth2) as (th3 & Hth3 & Hh3). eauto.
Qed.

Lemma warn_evolves msg p : evolves p (warn msg p).
Proof.
  split; [intros l lk H; exists lk | intros t th H; exists th]; auto.
Qed.

(** ** Every line keeps the state in order *)

Lemma action_of_on_cursor line p : on_cursor (action_of line p) p.
Proof.
  unfold action_of.
  destruct (Str.startsWith line THREAD_HEADER_PREFIX); [exact I|].
  destruct (truthy line); [|exact I].
  destruct (currentThread p) as [t|] eqn:Ht; [|exact I].
  unfold stack_action_of.
  destruct (truthy (matchOne line FRAME_PATTERN)); [exact Ht|].
  destruct (truthy (matchOne line THREAD_STATE_PATTERN)); [exact Ht|].
  destruct (sync_of line) as [|state [|lockId [|className [|x xs]]]].
  1-3, 5:
    destruct (held_of line) as [|i [|c [|y ys]]]; try exact Ht;
    destruct (truthy (matchOne line LOCKED_OWNABLE_SYNCHRONIZERS_PATTERN)
              || truthy (matchOne line NONE_HELD_PATTERN)
              || truthy (matchOne line JNI_REFERENCES_PATTERN)); exact I.
  destruct (is_wait_verb state); [exact Ht|].
  destruct (bool_decide (state = "locked")); [exact Ht|].
  destruct (bool_decide (state = "eliminated")); exact I.
Qed.

(** The case analysis of the proofs below: an action is a write, a header,
    or changes nothing but the console. *)
Ltac with_lock d p lockId className l locks' p1 Hcall :=
  destruct (getOrCreateLock (ThreadDump.locks d) lockId className p)
    as [[l locks'] p1] eqn:Hcall.

Ltac locked_cases p t lockId Hw :=
  destruct (waits_for_id p t lockId) eqn:Hw;
  [unfold record_locked; rewrite Hw; cbn [fst snd]|].

Lemma perform_store_ok a d p :
  store_ok p -> store_ok (perform a d p).2.
Proof.
  intros Hok. destruct a as [|msg|header|t frame|t st|t i c|t i c|t i c]; cbn [perform snd].
  - exact Hok.
  - exact Hok.
  - now apply header_store_ok.
  - rewrite upd_thread_touch. apply touch_store_ok; [done|]. intros th _. split; auto.
  - rewrite upd_thread_touch. apply touch_store_ok; [done|]. intros th _. split; auto.
  - with_lock d p i c l locks' p1 Hcall. rewrite (record_wait_touch _ _ _ _ _ _ _ _ Hcall).
    destruct (getOrCreateLock_lock _ _ _ _ _ _ _ Hcall) as (lk & Hlk & _).
    apply touch_store_ok; [now apply (getOrCreateLock_store_ok _ _ _ _ _ _ _ Hcall)|].
    intros th _. split; [right|left]; eauto.
  - locked_cases p t i Hw; [exact Hok|].
    with_lock d p i c l locks' p1 Hcall.
    rewrite (record_locked_touch _ _ _ _ _ _ _ _ Hw Hcall).
    destruct (getOrCreateLock_lock _ _ _ _ _ _ _ Hcall) as (lk & Hlk & _).
    apply touch_store_ok; [now apply (getOrCreateLock_store_ok _ _ _ _ _ _ _ Hcall)|].
    intros th _. split; [now left|]. cbn. intros x Hx.
    apply elem_of_app in Hx as [Hx|Hx]; [now left|].
    apply list_elem_of_singleton in Hx as ->. right. eauto.
  - with_lock d p i c l locks' p1 Hcall. rewrite (record_held_touch _ _ _ _ _ _ _ _ Hcall).
    apply touch_store_ok; [now apply (getOrCreateLock_store_ok _ _ _ _ _ _ _ Hcall)|].
    intros th _. split; auto.
Qed.



Lemma perform_evolves a d p : evolves p (perform a d p).2.
Proof.
  destruct a as [|msg|header|t frame|t st|t i c|t i c|t i c]; cbn [perform snd].
  - apply evolves_refl.
  - apply warn_evolves.
  - apply header_evolves.
  - rewrite upd_thread_touch. apply touch_evolves; auto.
  - rewrite upd_thread_touch. apply touch_evolves; auto.
  - with_lock d p i c l locks' p1 Hcall. rewrite (record_wait_touch _ _ _ _ _ _ _ _ Hcall).
    eapply evolves_trans; [apply (getOrCreateLock_evolves _ _ _ _ _ _ _ Hcall)|].
    apply touch_evolves; auto.
  - locked_cases p t i Hw; [apply evolves_refl|].
    with_lock d p i c l locks' p1 Hcall.
    rewrite (record_locked_touch _ _ _ _ _ _ _ _ Hw Hcall).
    eapply evolves_trans; [apply (getOrCreateLock_evolves _ _ _ _ _ _ _ Hcall)|].
    apply touch_evolves; [auto|]. intros th x Hx. cbn. apply elem_of_app. now left.
  - with_lock d p i c l locks' p1 Hcall. rewrite (record_held_touch _ _ _ _ _ _ _ _ Hcall).
    eapply evolves_trans; [apply (getOrCreateLock_evolves _ _ _ _ _ _ _ Hcall)|].
    apply touch_evolves; [auto|]. intros th x Hx. cbn. apply elem_of_app. now left.
Qed.

(** The locks of the dump are only appended to. *)
Lemma perform_locks_grow a d p :
  exists more, ThreadDump.locks (perform a d p).1 = ThreadDump.locks d ++ more.
Proof.
  assert (forall i c l locks' p1,
            getOrCreateLock (ThreadDump.locks d) i c p = (l, locks', p1) ->
            exists more, locks' = ThreadDump.locks d ++ more) as Hgoc.
  { intros i c l locks' p1 Hcall.
    destruct (getOrCreateLock_cases _ _ _ _ _ _ _ Hcall)
      as [(_ & -> & _)|(_ & _ & -> & _)]; [exists []; now rewrite app_nil_r | eauto]. }
  destruct a as [|msg|header|t frame|t st|t i c|t i c|t i c]; cbn [perform fst].
  1, 2, 4, 5: exists []; now rewrite app_nil_r.
  - rewrite header_locks. exists []. now rewrite app_nil_r.
  - with_lock d p i c l locks' p1 Hcall. rewrite (record_wait_touch _ _ _ _ _ _ _ _ Hcall).
    apply (Hgoc _ _ _ _ _ Hcall).
  - locked_cases p t i Hw; [exists []; now rewrite app_nil_r|].
    with_lock d p i c l locks' p1 Hcall.
    rewrite (record_locked_touch _ _ _ _ _ _ _ _ Hw Hcall). apply (Hgoc _ _ _ _ _ Hcall).
  - with_lock d p i c l locks' p1 Hcall. rewrite (record_held_touch _ _ _ _ _ _ _ _ Hcall).
    apply (Hgoc _ _ _ _ _ Hcall).
Qed.

Lemma evolves_dump_ok d p p' : evolves p p' -> dump_ok d p -> dump_ok d p'.
Proof.
  intros [Hl _] Hok l Hin. destruct (Hok _ Hin) as [lk Hlk].
  destruct (Hl _ _ Hlk) as (lk' & -> & _). eauto.
Qed.

Lemma perform_dump_ok a d p :
  dump_ok d p -> dump_ok (perform a d p).1 (perform a d p).2.
Proof.
  intros Hok.
  assert (forall i c l locks' p1 t f g,
            getOrCreateLock (ThreadDump.locks d) i c p = (l, locks', p1) ->
            (forall lk, Lock.id (g lk) = Lock.id lk
                        /\ Lock.className (g lk) = Lock.className lk) ->
            dump_ok (ThreadDump.set_locks locks' d) (touch t f l g p1)) as Hgoc.
  { intros i c l locks' p1 t f g Hcall Hg.
    pose proof (getOrCreateLock_dump_ok _ _ _ _ _ _ _ Hcall d eq_refl Hok) as Hok1.
    intros x Hx. destruct (Hok1 _ Hx) as [lk Hlk].
    destruct (touch_lock_fwd t f l g p1 _ _ Hlk) as (lk' & -> & _). eauto. }
  destruct a as [|msg|header|t frame|t st|t i c|t i c|t i c]; cbn [perform fst snd].
  - exact Hok.
  - exact Hok.
  - intros l. rewrite header_locks, header_get_lock. apply Hok.
  - exact Hok.
  - exact Hok.
  - with_lock d p i c l locks' p1 Hcall. rewrite (record_wait_touch _ _ _ _ _ _ _ _ Hcall).
    apply (Hgoc _ _ _ _ _ _ _ _ Hcall). auto.
  - locked_cases p t i Hw; [exact Hok|].
    with_lock d p i c l locks' p1 Hcall.
    rewrite (record_locked_touch _ _ _ _ _ _ _ _ Hw Hcall).
    apply (Hgoc _ _ _ _ _ _ _ _ Hcall). auto.
  - with_lock d p i c l locks' p1 Hcall. rewrite (record_held_touch _ _ _ _ _ _ _ _ Hcall).
    apply (Hgoc _ _ _ _ _ _ _ _ Hcall). auto.
Qed.

(** ** The resolver keeps the state in order *)

Lemma splice1_subset start (l : list nat) x : x ∈ splice1 start l -> x ∈ l.
Proof. destruct start; simpl; apply list_elem_of_delete_inv. Qed.

Lemma resolved_thread_target l th :
  Thread.lockWaitingFor (resolved_thread l th) = Some l.
Proof. reflexivity. Qed.

Lemma resolved_thread_classical l th x :
  x ∈ Thread.classicalLocksHeld (resolved_thread l th) ->
  x ∈ Thread.classicalLocksHeld th.
Proof. cbn. apply splice1_subset. Qed.

Section ResolveThread.
Variables (t : thread_ref) (p p' : Proc).
Hypothesis Hok : store_ok p.
Hypothesis Hres : resolve_thread t p = inr p'.

(** The call returned: either there is no such thread and nothing changed,
    or the thread has a first classical lock, which is an object. *)
Lemma resolve_thread_cases :
  p' = p
  \/ exists th l lk, get_thread p t = Some th
       /\ Thread.classicalLocksHeld th !! 0 = Some l /\ get_lock p l = Some lk
       /\ p' = touch t (resolved_thread l) l (resolved_lock t) p.
Proof.
  destruct (get_thread p t) as [th|] eqn:Hth.
  - destruct (Thread.classicalLocksHeld th !! 0) as [l|] eqn:Hl.
    + right. rewrite (resolve_thread_touch _ _ _ _ Hth Hl) in Hres.
      injection Hres as <-. destruct Hok as (_ & _ & Hcl).
      destruct (Hcl t th l Hth) as [lk Hlk].
      { apply list_elem_of_lookup. eauto. }
      exists th, l, lk. auto.
    + unfold resolve_thread in Hres. rewrite Hth, Hl in Hres. discriminate.
  - unfold resolve_thread in Hres. rewrite Hth in Hres. injection Hres as <-. now left.
Qed.

Lemma resolve_thread_store_ok : store_ok p'.
Proof.
  destruct resolve_thread_cases as [->|(th & l & lk & Hth & Hl & Hlk & ->)]; [done|].
  apply touch_store_ok; [done|]. intros th' _. split.
  - right. split; [apply resolved_thread_target | eauto].
  - intros x Hx. left. now apply (resolved_thread_classical l).
Qed.


End ResolveThread.


(** ** The line pass keeps the state in order *)


Lemma fresh_store_ok : store_ok fresh.
Proof. repeat split; intros; discriminate. Qed.





(** ** Thread status classification *)

Lemma append_String a (p r : string) :
  (String a p ++ r)%string = String a (p ++ r)%string.
Proof. reflexivity. Qed.

Lemma startsWith_iff s p :
  Str.startsWith s p = true <-> exists rest, s = (p ++ rest)%string.
Proof.
  unfold Str.startsWith. revert s.
  induction p as [|a p IH]; intros s.
  - split; [intros _; now exists s | now destruct s].
  - destruct s as [|b s].
    + split; [discriminate | intros [rest H]; discriminate H].
    + change (String.prefix (String a p) (String b s))
        with (if ascii_dec a b then String.prefix p s else false).
      destruct (ascii_dec a b) as [->|Hne].
      * rewrite IH. split; intros [rest H]; exists rest;
          rewrite append_String in *; congruence.
      * split; [discriminate | intros [rest H]; rewrite append_String in H; congruence].
Qed.

Lemma startsWith_false s p :
  Str.startsWith s p = false <-> forall rest, s <> (p ++ rest)%string.
Proof.
  split.
  - intros H rest ->.
    assert (Str.startsWith (p ++ rest) p = true) by (apply startsWith_iff; eauto).
    congruence.
  - intros H. destruct (Str.startsWith s p) eqn:E; [|reflexivity].
    apply startsWith_iff in E as [rest ->]. now elim (H rest).
Qed.

Lemma member_named_Some key ms st :
  member_named key ms = Some st -> (key, st) ∈ ms.
Proof.
  induction ms as [|[n s] ms IH]; simpl; [discriminate|].
  destruct (bool_decide (n = key)) eqn:E.
  - apply bool_decide_eq_true in E as ->. intros [= ->]. left.
  - intros H. right. auto.
Qed.

Lemma member_named_None key ms :
  member_named key ms = None -> forall st, (key, st) ∉ ms.
Proof.
  induction ms as [|[n s] ms IH]; simpl; intros H st Hin.
  - inversion Hin.
  - destruct (bool_decide (n = key)) eqn:E; [discriminate|].
    apply bool_decide_eq_false in E.
    apply elem_of_cons in Hin as [Heq|Hin]; [congruence | now apply (IH H st)].
Qed.

(** The member names are distinct: a name has the member it is listed with. *)
Lemma ThreadStatus_of_key_member key st :
  (key, st) ∈ ThreadStatus_members -> ThreadStatus_of_key key = Some (Member st).
Proof.
  unfold ThreadStatus_members. intros H.
  repeat (apply elem_of_cons in H as [[= -> ->]|H]; [reflexivity|]).
  inversion H.
Qed.

(** A key that is no inherited property is a member name or nothing. *)
Lemma ThreadStatus_of_key_own key :
  key ∉ Object_prototype_keys ->
  ThreadStatus_of_key key = Member <$> member_named key ThreadStatus_members.
Proof.
  intros H. unfold ThreadStatus_of_key.
  destruct (member_named key ThreadStatus_members); [reflexivity|].
  now rewrite bool_decide_eq_false_2.
Qed.

(** An inherited property is what the read of line 146 gives for its key. *)
Lemma ThreadStatus_of_key_inherited key :
  key ∈ Object_prototype_keys -> ThreadStatus_of_key key = Some (Inherited key).
Proof.
  unfold Object_prototype_keys. intros H.
  repeat (apply elem_of_cons in H as [->|H]; [reflexivity|]).
  inversion H.
Qed.

(** C7. The token [constructor] is the name of no member, and yet the
    classification does not give UNKNOWN: the read [ThreadStatus[key]] of
    line 146 finds the property that the object of the enumeration inherits,
    which is not [undefined], and line 148 returns it.  A state line with
    that token stores it as the status of the thread. *)
Theorem inherited_key_is_not_UNKNOWN :
  member_named "constructor" ThreadStatus_members = None
  /\ stringToThreadStatus "constructor" = Inherited "constructor"
  /\ stringToThreadStatus "constructor" <> Member UNKNOWN
  /\ exists d p th,
       parseThreadDump "dump.txt" inherited_status_document fresh = inr (d, p)
       /\ ThreadDump.threads d = [0]
       /\ get_thread p 0 = Some th
       /\ Thread.status th = Some (Inherited "constructor").
Proof.
  split; [reflexivity|]. split; [reflexivity|]. split; [discriminate|].
  eexists _, _, _. split; [vm_compute; reflexivity|].
  split; [reflexivity|]. split; reflexivity.
Qed.

(** ** Held locks and the wait-target *)


Lemma touch_held_ok t f l g p :
  held_ok p ->
  (forall th x, x ∈ Thread.locksHeld (f th) ->
     x ∈ Thread.locksHeld th \/ (x = l /\ is_Some (get_lock p l))) ->
  held_ok (touch t f l g p).
Proof.
  intros Hinv Hf t' th' x Hth' Hx.
  assert (forall y, is_Some (get_lock p y) -> is_Some (get_lock (touch t f l g p) y))
    as Hkeep.
  { intros y [lk Hy]. destruct (touch_lock_fwd t f l g p _ _ Hy) as (lk' & -> & _). eauto. }
  apply Hkeep.
  destruct (touch_thread_inv _ _ _ _ _ _ _ Hth') as (th & Hth & [->|[-> ->]]); [eauto|].
  destruct (Hf _ _ Hx) as [Hx'|[-> Hl]]; eauto.
Qed.

Lemma perform_held_ok a d p : held_ok p -> held_ok (perform a d p).2.
Proof.
  intros Hinv.
  assert (forall i c l locks' p1,
            getOrCreateLock (ThreadDump.locks d) i c p = (l, locks', p1) ->
            held_ok p1 /\ is_Some (get_lock p1 l)) as Hgoc.
  { intros i c l locks' p1 Hcall. split.
    - intros t th x. rewrite (getOrCreateLock_threads _ _ _ _ _ _ _ Hcall).
      intros Hth Hx. destruct (Hinv _ _ _ Hth Hx) as [lk Hlk].
      exists lk. now apply (getOrCreateLock_old _ _ _ _ _ _ _ Hcall).
    - destruct (getOrCreateLock_lock _ _ _ _ _ _ _ Hcall) as (lk & Hlk & _). eauto. }
  destruct a as [|msg|header|t frame|t st|t i c|t i c|t i c]; cbn [perform snd].
  - exact Hinv.
  - exact Hinv.
  - intros t th x Hth Hx. rewrite header_get_lock.
    destruct (header_thread_inv _ _ _ _ _ Hth) as [Hold|(_ & _ & Hn & _)]; [eauto|].
    rewrite Hn in Hx. inversion Hx.
  - rewrite upd_thread_touch. apply touch_held_ok; auto.
  - rewrite upd_thread_touch. apply touch_held_ok; auto.
  - with_lock d p i c l locks' p1 Hcall. rewrite (record_wait_touch _ _ _ _ _ _ _ _ Hcall).
    destruct (Hgoc _ _ _ _ _ Hcall). apply touch_held_ok; auto.
  - locked_cases p t i Hw; [exact Hinv|].
    with_lock d p i c l locks' p1 Hcall.
    rewrite (record_locked_touch _ _ _ _ _ _ _ _ Hw Hcall).
    destruct (Hgoc _ _ _ _ _ Hcall). apply touch_held_ok; [done|].
    cbn. intros th x Hx. apply elem_of_app in Hx as [Hx|Hx]; [now left|].
    apply list_elem_of_singleton in Hx as ->. now right.
  - with_lock d p i c l locks' p1 Hcall. rewrite (record_held_touch _ _ _ _ _ _ _ _ Hcall).
    destruct (Hgoc _ _ _ _ _ Hcall). apply touch_held_ok; [done|].
    cbn. intros th x Hx. apply elem_of_app in Hx as [Hx|Hx]; [now left|].
    apply list_elem_of_singleton in Hx as ->. now right.
Qed.

(** The locks held stay objects along the lines. *)
Lemma parseLines_held_ok lines : forall d p,
  held_ok p -> held_ok (parseLines lines d p).2.
Proof.
  induction lines as [|line lines IH]; intros d p Hinv; simpl; [exact Hinv|].
  destruct (parseLine line d p) as [d1 p1] eqn:Hline.
  apply IH. rewrite parseLine_perform in Hline.
  pose proof (perform_held_ok (action_of line p) d p Hinv) as H.
  now rewrite Hline in H.
Qed.










(** ** Identity of locks *)

Lemma find_lock_evolves d p p' locks' more id l :
  dump_ok d p -> evolves p p' -> locks' = ThreadDump.locks d ++ more ->
  find_lock p (ThreadDump.locks d) id = Some l ->
  find_lock p' locks' id = Some l.
Proof.
  intros Hok [Hev _] -> Hf. apply find_lock_app_l. rewrite <- Hf.
  apply find_lock_ext. intros x Hx. destruct (Hok _ Hx) as [lk Hlk].
  destruct (Hev _ _ Hlk) as (lk' & Hlk' & Hid & _). eauto.
Qed.

Lemma parseLines_grows lines : forall d p d' p',
  dump_ok d p -> parseLines lines d p = (d', p') ->
  dump_ok d' p' /\ evolves p p'
  /\ exists more, ThreadDump.locks d' = ThreadDump.locks d ++ more.
Proof.
  induction lines as [|line lines IH]; intros d p d' p' Hok Hrun; simpl in Hrun.
  - injection Hrun as <- <-. split; [done|]. split; [apply evolves_refl|].
    exists []. now rewrite app_nil_r.
  - destruct (parseLine line d p) as [d1 p1] eqn:Hline.
    rewrite parseLine_perform in Hline.
    pose proof (perform_dump_ok (action_of line p) d p Hok) as Hok1.
    pose proof (perform_evolves (action_of line p) d p) as Hev1.
    destruct (perform_locks_grow (action_of line p) d p) as [more1 Hg1].
    rewrite Hline in Hok1, Hev1, Hg1. cbn [fst snd] in Hok1, Hev1, Hg1.
    destruct (IH _ _ _ _ Hok1 Hrun) as (Hok2 & Hev2 & more2 & Hg2).
    split; [done|]. split; [now apply (evolves_trans _ p1)|].
    exists (more1 ++ more2). now rewrite Hg2, Hg1, app_assoc.
Qed.

Lemma parseLines_find lines d p d' p' id l :
  dump_ok d p -> parseLines lines d p = (d', p') ->
  find_lock p (ThreadDump.locks d) id = Some l ->
  find_lock p' (ThreadDump.locks d') id = Some l.
Proof.
  intros Hok Hrun Hf.
  destruct (parseLines_grows _ _ _ _ _ Hok Hrun) as (_ & Hev & more & Hg).
  now apply (find_lock_evolves d p p' _ more).
Qed.

(** C5. Within one dump, a call of [getOrCreateLock] and any later call with
    the same id, whatever lines are read in between, return the same lock,
    and the later call creates nothing.  The lock is the first one of the
    locks of the dump with that id.  When no lock had the id, the lock is a
    new object appended to the locks of the dump, with the id and the class
    name of the call, no owner and nobody waiting; when one had it, the call
    changes nothing.  The lock keeps its id and its class name. *)
Theorem getOrCreateLock_same_lock
    d p id className lines className' (Hd : dump_ok d p) :
  exists l locks1 p1 d2 p2 lk1 lk2,
    getOrCreateLock (ThreadDump.locks d) id className p = (l, locks1, p1)
    /\ parseLines lines (ThreadDump.set_locks locks1 d) p1 = (d2, p2)
    /\ getOrCreateLock (ThreadDump.locks d2) id className' p2
       = (l, ThreadDump.locks d2, p2)
    /\ first_with_id p1 locks1 id l
    /\ first_with_id p2 (ThreadDump.locks d2) id l
    /\ (find_lock p (ThreadDump.locks d) id = None ->
          l = length (lock_store p) /\ get_lock p l = None
          /\ locks1 = ThreadDump.locks d ++ [l]
          /\ get_lock p1 l = Some (Lock.mk id className None []))
    /\ (forall l0, find_lock p (ThreadDump.locks d) id = Some l0 ->
          l = l0 /\ locks1 = ThreadDump.locks d /\ p1 = p)
    /\ get_lock p1 l = Some lk1 /\ get_lock p2 l = Some lk2
    /\ Lock.id lk1 = id /\ Lock.id lk2 = id
    /\ Lock.className lk2 = Lock.className lk1.
Proof.
  destruct (getOrCreateLock (ThreadDump.locks d) id className p)
    as [[l locks1] p1] eqn:Hcall.
  destruct (parseLines lines (ThreadDump.set_locks locks1 d) p1) as [d2 p2] eqn:Hrun.
  pose proof (getOrCreateLock_dump_ok _ _ _ _ _ _ _ Hcall d eq_refl Hd) as Hd1.
  pose proof (getOrCreateLock_find _ _ _ _ _ _ _ Hcall Hd) as Hf1.
  pose proof (parseLines_find _ _ _ _ _ _ _ Hd1 Hrun Hf1) as Hf2.
  destruct (getOrCreateLock_lock _ _ _ _ _ _ _ Hcall) as (lk1 & Hlk1 & Hid1).
  destruct (parseLines_grows _ _ _ _ _ Hd1 Hrun) as (_ & [Hev _] & _).
  destruct (Hev _ _ Hlk1) as (lk2 & Hlk2 & Hid2 & Hcn2).
  exists l, locks1, p1, d2, p2, lk1, lk2.
  split; [reflexivity|]. split; [exact Hrun|].
  split; [now apply getOrCreateLock_found|].
  split; [now apply find_lock_first|].
  split; [now apply find_lock_first|].
  split; [|split].
  - intros Hnone.
    destruct (getOrCreateLock_cases _ _ _ _ _ _ _ Hcall)
      as [(Hsome & _)|(_ & -> & -> & ->)]; [congruence|].
    split; [reflexivity|]. split; [apply lookup_ge_None; lia|].
    split; [reflexivity|].
    unfold get_lock. cbn [lock_store]. rewrite lookup_app_r by lia.
    now rewrite Nat.sub_diag.
  - intros l0 Hsome.
    destruct (getOrCreateLock_cases _ _ _ _ _ _ _ Hcall)
      as [(Hsome' & -> & ->)|(Hnone & _)]; [|congruence].
    split; [congruence | auto].
  - repeat split; congruence.
Qed.

Lemma fresh_dump_ok : dump_ok ThreadDump.new fresh.
Proof. intros l H. inversion H. Qed.

Lemma getOrCreateLock_same_lock_witness :
  exists l locks1 p1 d2 p2 lk1 lk2,
    getOrCreateLock [] "0x1" "A" fresh = (l, locks1, p1)
    /\ parseLines [header_line "T" " nid=7"; "   - locked <0x2> (a B)";
                   "   - waiting on <0x1> (a C)"]
         (ThreadDump.set_locks locks1 ThreadDump.new) p1 = (d2, p2)
    /\ getOrCreateLock (ThreadDump.locks d2) "0x1" "D" p2
       = (l, ThreadDump.locks d2, p2)
    /\ first_with_id p1 locks1 "0x1" l
    /\ first_with_id p2 (ThreadDump.locks d2) "0x1" l
    /\ (find_lock fresh [] "0x1" = None ->
          l = 0 /\ get_lock fresh l = None
          /\ locks1 = [] ++ [l]
          /\ get_lock p1 l = Some (Lock.mk "0x1" "A" None []))
    /\ (forall l0, find_lock fresh [] "0x1" = Some l0 ->
          l = l0 /\ locks1 = [] /\ p1 = fresh)
    /\ get_lock p1 l = Some lk1 /\ get_lock p2 l = Some lk2
    /\ Lock.id lk1 = "0x1" /\ Lock.id lk2 = "0x1"
    /\ Lock.className lk2 = Lock.className lk1.
Proof.
  exact (getOrCreateLock_same_lock ThreadDump.new fresh "0x1" "A"
           [header_line "T" " nid=7"; "   - locked <0x2> (a B)";
            "   - waiting on <0x1> (a C)"] "D" fresh_dump_ok).
Defined.

(** ** The parser on documents *)

(** C4. On the scenario document the parser returns a dump with one thread
    named Thread-1, of status RUNNABLE, with the one stack frame and no lock;
    the id of the thread is 0, not 1: [parseInt] with radix 10 reads the
    token [0x1] up to its [x]. *)
Theorem scenario_thread_id_is_0 :
  forall fileName, exists d p,
    parseThreadDump fileName scenario_document fresh = inr (d, p)
    /\ ThreadDump.threads d = [0]
    /\ ThreadDump.locks d = []
    /\ get_thread p 0 =
         Some {| Thread.id := Str.Num 0; Thread.name := "Thread-1";
                 Thread.status := Some (Member RUNNABLE); Thread.locksHeld := [];
                 Thread.classicalLocksHeld := []; Thread.lockWaitingFor := None;
                 Thread.stackTrace := ["com.example.Foo.bar(Foo.java:10)"] |}
    /\ matchOne (header_line "Thread-1" " nid=0x1") NID_PATTERN = "0x1"
    /\ Str.parseInt10 "0x1" = Str.Num 0.
Proof.
  intros fileName. unfold parseThreadDump.
  generalize (getDateFromFilename fileName FILENAME_DATE_PATTERN). intros date.
  eexists _, _. split; [vm_compute; reflexivity|].
  repeat split; vm_compute; reflexivity.
Qed.

(** C1. On a document with a BLOCKED thread that has no wait record and no
    ['locked'] record, the resolver reads the first classical held lock of
    an empty list and the parser throws a [TypeError]. *)
Theorem blocked_without_lock_throws :
  forall fileName, exists e,
    parseThreadDump fileName blocked_document fresh = inl e
    /\ (exists d p,
          parseLines (Str.split_lines blocked_document) ThreadDump.new fresh = (d, p)
          /\ ThreadDump.threads d = [0]
          /\ get_thread p 0 =
               Some {| Thread.id := Str.Num 7; Thread.name := "T";
                       Thread.status := Some (Member BLOCKED); Thread.locksHeld := [];
                       Thread.classicalLocksHeld := [];
                       Thread.lockWaitingFor := None; Thread.stackTrace := [] |}
          /\ exists msg, resolve_thread 0 p = inl (TypeError msg)).
Proof.
  intros fileName. unfold parseThreadDump.
  generalize (getDateFromFilename fileName FILENAME_DATE_PATTERN). intros date.
  eexists. split; [vm_compute; reflexivity|].
  eexists _, _. split; [vm_compute; reflexivity|].
  repeat split; try (vm_compute; reflexivity).
  eexists. vm_compute. reflexivity.
Qed.

(** C8. The cursor [currentThread] outlives a call.  A document with a
    ['locked'] record before any header gives a dump without locks in a
    process that has parsed nothing, and a dump with one lock, owned by a
    thread of the earlier dump, after a call on the scenario document. *)
Theorem second_parse_differs :
  forall fileName, exists d1 p1 d0 p0 d2 p2 lk,
    parseThreadDump fileName preamble_document fresh = inr (d1, p1)
    /\ parseThreadDump fileName scenario_document fresh = inr (d0, p0)
    /\ parseThreadDump fileName preamble_document p0 = inr (d2, p2)
    /\ ThreadDump.threads d1 = [] /\ ThreadDump.locks d1 = []
    /\ ThreadDump.threads d2 = [] /\ ThreadDump.locks d2 = [0]
    /\ get_lock p2 0 = Some lk /\ Lock.id lk = "0x1" /\ Lock.owner lk = Some 0
    /\ ThreadDump.threads d0 = [0]
    /\ (Thread.locksHeld <$> get_thread p0 0) = Some []
    /\ (Thread.locksHeld <$> get_thread p2 0) = Some [0].
Proof.
  intros fileName. unfold parseThreadDump.
  generalize (getDateFromFilename fileName FILENAME_DATE_PATTERN). intros date.
  eexists _, _, _, _, _, _, _.
  split; [vm_compute; reflexivity|].
  split; [vm_compute; reflexivity|].
  split; [vm_compute; reflexivity|].
  repeat split; vm_compute; reflexivity.
Qed.

(** ** Records *)

Lemma is_wait_verb_locked : is_wait_verb "locked" = false.
Proof. reflexivity. Qed.

(** C6. A ['locked'] record whose lock id is the id of the wait-target of the
    current thread changes nothing: the dump, the store (no lock is created,
    no thread or lock is written), the cursor and the console are those of
    before. *)
Theorem locked_on_wait_target_discarded
    line d p t th l lk className
    (Hcur : currentThread p = Some t)
    (Hth : get_thread p t = Some th)
    (Htarget : Thread.lockWaitingFor th = Some l)
    (Hlk : get_lock p l = Some lk)
    (Hline : sync_of line = ["locked"; Lock.id lk; className]) :
  parseLine line d p = (d, p).
Proof.
  rewrite parseLine_perform, (action_of_sync _ _ _ _ _ _ Hcur Hline).
  rewrite is_wait_verb_locked. cbn [bool_decide decide_rel perform].
  rewrite bool_decide_eq_true_2 by reflexivity.
  cbn [perform]. unfold record_locked, waits_for_id.
  rewrite Hth, Htarget, Hlk. now rewrite bool_decide_eq_true_2.
Qed.

Lemma locked_on_wait_target_discarded_witness :
  parseLine "   - locked <0x1> (a A)" waiting_state.1 waiting_state.2
  = (waiting_state.1, waiting_state.2).
Proof.
  eapply (locked_on_wait_target_discarded _ _ _ 0 _ 0 _ "A");
    vm_compute; reflexivity.
Defined.

(** The scenario of the specification: a ['locked'] record after the wait
    record for the same lock leaves no held lock and the wait-target as it
    was. *)
Example wait_then_locked_parse :
  exists d p,
    parseThreadDump "dump.txt" wait_then_locked_document fresh = inr (d, p)
    /\ ThreadDump.locks d = [0]
    /\ get_thread p 0 =
         Some {| Thread.id := Str.Num 7; Thread.name := "T"; Thread.status := None;
                 Thread.locksHeld := []; Thread.classicalLocksHeld := [];
                 Thread.lockWaitingFor := Some 0; Thread.stackTrace := [] |}
    /\ get_lock p 0 =
         Some {| Lock.id := "0x1"; Lock.className := "A"; Lock.owner := None;
                 Lock.waiting := [0] |}.
Proof.
  eexists _, _. split; [vm_compute; reflexivity|]. repeat split.
Qed.



(** ** Ownership *)




(** * Further properties *)

(** ** The matcher, continued *)

Lemma append_assoc (a b c : string) :
  ((a ++ b) ++ c)%string = (a ++ (b ++ c))%string.
Proof.
  induction a as [|x a IH]; [reflexivity|]. rewrite !append_String. now rewrite IH.
Qed.

Lemma append_empty_r (a : string) : (a ++ EmptyString)%string = a.
Proof.
  induction a as [|x a IH]; [reflexivity|]. rewrite append_String. now rewrite IH.
Qed.

Lemma length_append (a b : string) :
  String.length (a ++ b) = String.length a + String.length b.
Proof.
  induction a as [|x a IH]; [reflexivity|]. rewrite append_String. simpl.
  now rewrite IH.
Qed.

Lemma rev_app_app s : forall acc,
  Str.rev_app s acc = (Str.rev_app s EmptyString ++ acc)%string.
Proof.
  induction s as [|c s IH]; intros acc; simpl; [reflexivity|].
  rewrite (IH (String c acc)), (IH (String c EmptyString)).
  now rewrite append_assoc.
Qed.

Lemma rev_app_rev_app s : forall acc,
  Str.rev_app (Str.rev_app s acc) EmptyString
  = (Str.rev_app acc EmptyString ++ s)%string.
Proof.
  induction s as [|c s IH]; intros acc; simpl.
  - now rewrite append_empty_r.
  - rewrite (IH (String c acc)). simpl.
    rewrite (rev_app_app acc (String c EmptyString)). now rewrite append_assoc.
Qed.

(** The text of a group is the text the repetition consumed. *)
Lemma rev_consumed s : Str.rev (Str.rev_app s EmptyString) = s.
Proof. unfold Str.rev. now rewrite rev_app_rev_app. Qed.

Section MatcherCompleteness.
Context {R : Type}.
Variable p : ascii -> bool.
Variable k : string -> nat -> string -> option R.

(** A success further on is the result of the greedy repetition. *)
Lemma greedy_prefix s1 : forall s2 n acc r,
  all_in p s1 = true ->
  greedy p k s2 (n + String.length s1) (Str.rev_app s1 acc) = Some r ->
  greedy p k (s1 ++ s2) n acc = Some r.
Proof.
  induction s1 as [|c s1 IH]; intros s2 n acc r Hall Hk; simpl in *.
  - now rewrite Nat.add_0_r in Hk.
  - apply andb_prop in Hall as [Hc Hall]. rewrite Hc.
    rewrite (IH s2 (S n) (String c acc) r Hall); [reflexivity|].
    now replace (S n + String.length s1) with (n + S (String.length s1)) by lia.
Qed.

(** When the rest of the pattern fails after every further character, the
    greedy repetition gives the characters back. *)
Lemma greedy_fallback s : forall n acc,
  (forall a b, s = (a ++ b)%string -> a <> EmptyString ->
     k b (n + String.length a) (Str.rev_app a acc) = None) ->
  greedy p k s n acc = k s n acc.
Proof.
  induction s as [|c s IH]; intros n acc Hfail; simpl; [reflexivity|].
  destruct (p c); [|reflexivity].
  rewrite IH.
  - assert (k s (S n) (String c acc) = None) as ->; [|reflexivity].
    replace (S n) with (n + String.length (String c EmptyString)) by (simpl; lia).
    apply (Hfail (String c EmptyString) s); [reflexivity | discriminate].
  - intros a b -> Ha.
    replace (S n + String.length a) with (n + String.length (String c a))
      by (simpl; lia).
    apply (Hfail (String c a) b); [reflexivity | discriminate].
Qed.

(** The repetition stops where the class stops. *)
Lemma greedy_max s1 s2 n acc r :
  all_in p s1 = true -> stops p s2 = true ->
  k s2 (n + String.length s1) (Str.rev_app s1 acc) = Some r ->
  greedy p k (s1 ++ s2) n acc = Some r.
Proof.
  intros Hall Hstop Hk. apply greedy_prefix; [done|].
  destruct s2 as [|c s2]; simpl; [done|].
  simpl in Hstop. apply negb_true_iff in Hstop. now rewrite Hstop.
Qed.

Lemma plus_max c s1 s2 r :
  p c = true -> all_in p s1 = true -> stops p s2 = true ->
  k s2 (S (String.length s1)) (Str.rev_app s1 (String c EmptyString)) = Some r ->
  quantified p k Plus (String c s1 ++ s2) = Some r.
Proof.
  intros Hc Hall Hstop Hk. simpl. rewrite Hc. now apply greedy_max.
Qed.

(** With [+] the consumed text is not empty. *)
Lemma quantified_inv_nonempty q s r :
  q = Plus \/ q = One ->
  quantified p k q s = Some r ->
  exists s1 s2, s = (s1 ++ s2)%string /\ s1 <> EmptyString /\ all_in p s1 = true
                /\ k s2 (String.length s1) (Str.rev_app s1 EmptyString) = Some r.
Proof.
  intros [-> | ->]; simpl; unfold one.
  - destruct s as [|c s]; [discriminate|].
    destruct (p c) eqn:Hc; [|discriminate]. intros H.
    apply greedy_inv in H as (s1 & s2 & -> & Hall & Hk).
    exists (String c s1), s2. simpl. rewrite Hc, Hall. repeat split; auto; discriminate.
  - destruct s as [|c s]; [discriminate|].
    destruct (p c) eqn:Hc; [|discriminate]. intros H.
    exists (String c EmptyString), s. simpl. rewrite Hc. repeat split; auto; discriminate.
Qed.
End MatcherCompleteness.

(** A literal piece matches itself and nothing else. *)
Lemma run_lit pat : forall r pos s caps,
  run (lit pat ++ r) pos (pat ++ s) caps = run r (pos + String.length pat) s caps.
Proof.
  induction pat as [|c pat IH]; intros r pos s caps; simpl.
  - now rewrite Nat.add_0_r.
  - unfold one. simpl. rewrite bool_decide_eq_true_2 by reflexivity.
    rewrite IH. f_equal. lia.
Qed.

Lemma run_lit_fail pat : forall r pos s caps,
  String.prefix pat s = false -> run (lit pat ++ r) pos s caps = None.
Proof.
  induction pat as [|c pat IH]; intros r pos s caps Hp.
  - destruct s; discriminate Hp.
  - destruct s as [|b s]; [reflexivity|].
    change (String.prefix (String c pat) (String b s))
      with (if ascii_dec c b then String.prefix pat s else false) in Hp.
    cbn [lit app run quantified]. unfold one. cbn [accepts].
    destruct (ascii_dec c b) as [->|Hne].
    + rewrite bool_decide_eq_true_2 by reflexivity. now apply IH.
    + rewrite bool_decide_eq_false_2 by congruence. reflexivity.
Qed.

(** The groups of a match are the groups of the pattern, each with a text
    of its class. *)
Lemma run_groups r : forall pos s caps out,
  run r pos s caps = Some out ->
  exists texts, out = caps ++ texts /\ Forall2 group_text_ok texts (groups_of r).
Proof.
  induction r as [|nd r IH]; intros pos s caps out H.
  - injection H as <-. exists []. rewrite app_nil_r. split; [done | constructor].
  - destruct nd as [| |a q|a q]; cbn [run groups_of] in *.
    + destruct (bool_decide (pos = 0)); [eauto | discriminate].
    + destruct (bool_decide (s = EmptyString)); [eauto | discriminate].
    + apply quantified_inv in H as (s1 & s2 & _ & _ & Hk). eauto.
    + assert (exists s1 s2, all_in (accepts a) s1 = true
                /\ (q = Plus \/ q = One -> s1 <> EmptyString)
                /\ run r (pos + String.length s1) s2
                     (caps ++ [Str.rev (Str.rev_app s1 EmptyString)]) = Some out)
        as (s1 & s2 & Hall & Hne & Hk).
      { destruct q.
        2, 3, 5:
          apply quantified_inv in H as (s1 & s2 & _ & Hall & Hk);
          exists s1, s2; repeat split; auto; intros [Hq|Hq]; discriminate Hq.
        all:
          apply quantified_inv_nonempty in H as (s1 & s2 & _ & Hne & Hall & Hk);
          [eauto 6 | auto]. }
      rewrite rev_consumed in Hk.
      apply IH in Hk as (texts & -> & Hall2).
      exists (s1 :: texts). rewrite <- app_assoc. split; [reflexivity|].
      constructor; [split; assumption | assumption].
Qed.

Lemma search_groups r s : forall pos out,
  search r pos s = Some out -> Forall2 group_text_ok out (groups_of r).
Proof.
  induction s as [|c s IH]; intros pos out; simpl.
  - destruct (run r pos EmptyString []) as [o|] eqn:Hr; [|discriminate].
    intros [= <-]. now apply run_groups in Hr as (texts & -> & H).
  - destruct (run r pos (String c s) []) as [o|] eqn:Hr.
    + intros [= <-]. now apply run_groups in Hr as (texts & -> & H).
    + apply IH.
Qed.

Lemma all_in_ext p q s :
  (forall c, p c = true -> q c = true) -> all_in p s = true -> all_in q s = true.
Proof.
  intros Hpq. induction s as [|c s IH]; simpl; [done|].
  intros H. apply andb_prop in H as [Hc Hs]. now rewrite (Hpq _ Hc), IH.
Qed.

(** ** What the patterns capture *)

Lemma exec_groups r s out :
  exec r s = Some out -> Forall2 group_text_ok out (groups_of r).
Proof. apply search_groups. Qed.

(** X1. A line gives the synchronization-status pattern no group or exactly
    three, and the held-lock pattern no group or exactly two, so that the
    tests of the lengths (lines 69 and 105) never turn a match down; the
    lock id of a match is a non-empty text of the characters [x], [0-9] and
    [a-f], and the verb and the class name have no line terminator. *)
Theorem record_groups_well_formed line :
  (sync_of line = []
   \/ exists state lockId className,
        sync_of line = [state; lockId; className]
        /\ lockId <> EmptyString /\ all_in (accepts hex_x) lockId = true
        /\ all_in is_dot state = true /\ all_in is_dot className = true)
  /\ (held_of line = []
      \/ exists lockId className,
           held_of line = [lockId; className]
           /\ lockId <> EmptyString /\ all_in (accepts hex_x) lockId = true
           /\ all_in is_dot className = true).
Proof.
  split.
  - unfold sync_of, matchMultipleGroups.
    destruct (exec SYNCHRONIZATION_STATUS_PATTERN line) as [out|] eqn:E; [|now left].
    apply exec_groups in E.
    change (groups_of SYNCHRONIZATION_STATUS_PATTERN)
      with [(Dot, LazyStar); (hex_x, Plus); (Dot, Star)] in E.
    inversion E as [|state g1 out1 gs1 [Hs _] E1]; subst.
    inversion E1 as [|lockId g2 out2 gs2 [Hi Hne] E2]; subst.
    inversion E2 as [|className g3 out3 gs3 [Hc _] E3]; subst.
    inversion E3; subst.
    right. exists state, lockId, className. repeat split; auto.
  - unfold held_of, matchMultipleGroups.
    destruct (exec HELD_LOCK_PATTERN line) as [out|] eqn:E; [|now left].
    apply exec_groups in E.
    change (groups_of HELD_LOCK_PATTERN) with [(hex_x, Plus); (Dot, Star)] in E.
    inversion E as [|lockId g2 out2 gs2 [Hi Hne] E2]; subst.
    inversion E2 as [|className g3 out3 gs3 [Hc _] E3]; subst.
    inversion E3; subst.
    right. exists lockId, className. repeat split; auto.
Qed.

(** ** Stack frames and thread states *)

Lemma exec_at_start r s out : run r 0 s [] = Some out -> exec r s = Some out.
Proof. unfold exec. destruct s; simpl; now intros ->. Qed.












(** ** Status tokens with trailing text *)

Ltac member_cases H :=
  apply member_named_Some in H; unfold ThreadStatus_members in H;
  repeat (apply elem_of_cons in H as [H|H];
          [injection H as H ?; subst;
           try (exfalso; rewrite ?append_String in H; discriminate H;
                fail); try (repeat (rewrite ?append_String in H; injection H as H);
                            try discriminate H)|]);
  try (inversion H; fail).

Ltac not_inherited :=
  let H := fresh "H" in
  intros H; unfold Object_prototype_keys in H;
  repeat (apply elem_of_cons in H as [H|H];
          [rewrite ?append_String in H; discriminate H|]);
  inversion H.

(** X4. A token that starts with BLOCKED or with WAITING keeps that status
    whatever text follows; a token that is TIMED_WAITING followed by more
    text, as [TIMED_WAITING (sleeping)], is UNKNOWN: no member and no
    inherited property has that name, and the third prefix is
    [TIME_WAITING]. *)
Theorem status_of_token_with_text rest c :
  stringToThreadStatus ("BLOCKED" ++ rest) = Member BLOCKED
  /\ stringToThreadStatus ("WAITING" ++ rest) = Member WAITING
  /\ stringToThreadStatus ("TIMED_WAITING" ++ String c rest) = Member UNKNOWN.
Proof.
  unfold stringToThreadStatus. split; [|split].
  - rewrite ThreadStatus_of_key_own by not_inherited.
    destruct (member_named ("BLOCKED" ++ rest) _) as [st|] eqn:Hk; cbn [fmap option_fmap option_map].
    + member_cases Hk. reflexivity.
    + assert (Str.startsWith ("BLOCKED" ++ rest) "BLOCKED" = true) as ->
        by (apply startsWith_iff; eauto).
      reflexivity.
  - rewrite ThreadStatus_of_key_own by not_inherited.
    destruct (member_named ("WAITING" ++ rest) _) as [st|] eqn:Hk; cbn [fmap option_fmap option_map].
    + member_cases Hk. reflexivity.
    + assert (Str.startsWith ("WAITING" ++ rest) "BLOCKED" = false) as ->
        by (apply startsWith_false; intros r H; discriminate H).
      assert (Str.startsWith ("WAITING" ++ rest) "WAITING" = true) as ->
        by (apply startsWith_iff; eauto).
      reflexivity.
  - rewrite ThreadStatus_of_key_own by not_inherited. reflexivity.
Qed.

(** X20. The classification of every token: the name of a property that
    every object inherits gives that property; any other token gives a
    member of the enumeration, the one of that exact name if there is one,
    else BLOCKED for a token that starts with BLOCKED, else WAITING for one
    that starts with WAITING, else TIMED_WAITING for one that starts with
    TIME_WAITING, else UNKNOWN. *)
Theorem stringToThreadStatus_classifies token :
  (token ∈ Object_prototype_keys -> stringToThreadStatus token = Inherited token)
  /\ (token ∉ Object_prototype_keys ->
        (exists st, stringToThreadStatus token = Member st)
        /\ forall st, stringToThreadStatus token = Member st <-> classifies token st).
Proof.
  split.
  { intros H. unfold stringToThreadStatus.
    now rewrite (ThreadStatus_of_key_inherited _ H). }
  intros Hown. unfold stringToThreadStatus.
  rewrite (ThreadStatus_of_key_own _ Hown).
  split.
  { destruct (member_named token ThreadStatus_members); cbn; [eauto|].
    repeat (destruct (Str.startsWith token _); [eauto|]). eauto. }
  intros st. split.
  - destruct (member_named token ThreadStatus_members) as [st'|] eqn:Hk; cbn.
    + intros [= <-]. apply classifies_exact. now apply member_named_Some.
    + pose proof (member_named_None _ _ Hk) as Hno.
      destruct (Str.startsWith token "BLOCKED") eqn:Hb.
      { intros [= <-]. apply startsWith_iff in Hb as [rest ->].
        eapply classifies_blocked; eauto. }
      destruct (Str.startsWith token "WAITING") eqn:Hw.
      { intros [= <-]. apply startsWith_iff in Hw as [rest ->].
        eapply classifies_waiting; eauto; try now apply startsWith_false. }
      destruct (Str.startsWith token "TIME_WAITING") eqn:Ht.
      { intros [= <-]. apply startsWith_iff in Ht as [rest ->].
        eapply classifies_time_waiting; eauto; try now apply startsWith_false. }
      intros [= <-]. apply classifies_unknown; auto; try now apply startsWith_false.
  - intros H. destruct H as [token st Hm|token rest Hno ->|token rest Hno Hb ->
                            |token rest Hno Hb Hw ->|token Hno Hb Hw Ht].
    + pose proof (ThreadStatus_of_key_member _ _ Hm) as Hk.
      rewrite (ThreadStatus_of_key_own _ Hown) in Hk.
      destruct (member_named token ThreadStatus_members); cbn in Hk |- *;
        congruence.
    + destruct (member_named _ ThreadStatus_members) as [st'|] eqn:Hk; cbn.
      { apply member_named_Some in Hk. now elim (Hno st'). }
      assert (Str.startsWith ("BLOCKED" ++ rest) "BLOCKED" = true) as ->
        by (apply startsWith_iff; eauto).
      reflexivity.
    + destruct (member_named _ ThreadStatus_members) as [st'|] eqn:Hk; cbn.
      { apply member_named_Some in Hk. now elim (Hno st'). }
      apply startsWith_false in Hb. rewrite Hb.
      assert (Str.startsWith ("WAITING" ++ rest) "WAITING" = true) as ->
        by (apply startsWith_iff; eauto).
      reflexivity.
    + destruct (member_named _ ThreadStatus_members) as [st'|] eqn:Hk; cbn.
      { apply member_named_Some in Hk. now elim (Hno st'). }
      apply startsWith_false in Hb, Hw. rewrite Hb, Hw.
      assert (Str.startsWith ("TIME_WAITING" ++ rest) "TIME_WAITING" = true) as ->
        by (apply startsWith_iff; eauto).
      reflexivity.
    + destruct (member_named _ ThreadStatus_members) as [st'|] eqn:Hk; cbn.
      { apply member_named_Some in Hk. now elim (Hno st'). }
      apply startsWith_false in Hb, Hw, Ht. now rewrite Hb, Hw, Ht.
Qed.

(** ** Thread headers *)

Lemma lacks_suffix c s : forall a b c' b',
  lacks c s = true -> s = (a ++ b)%string -> b = String c' b' -> c' <> c.
Proof.
  induction s as [|x s IH]; intros a b c' b' Hl Hs Hb.
  - destruct a; [|discriminate Hs].
    change (EmptyString ++ b)%string with b in Hs. congruence.
  - simpl in Hl. apply andb_prop in Hl as [Hx Hl].
    apply negb_true_iff, bool_decide_eq_false in Hx.
    destruct a as [|y a].
    + change (EmptyString ++ b)%string with b in Hs. subst b.
      injection Hb as <- <-. exact Hx.
    + rewrite append_String in Hs. injection Hs as _ Hs. now apply (IH a b c' b').
Qed.

(** The name of a header: the text between the first double quote and the
    double quote before the first space that follows a double quote. *)
Lemma name_match name rest :
  all_in is_dot name = true -> lacks dquote rest = true ->
  exec NAME_PATTERN (String dquote (name ++ String dquote (String " " rest)))
  = Some [name].
Proof.
  intros Hname Hrest. apply exec_at_start. unfold NAME_PATTERN.
  cbn [run]. rewrite bool_decide_eq_true_2 by reflexivity.
  cbn [quantified]. unfold one at 1. cbn [accepts].
  rewrite bool_decide_eq_true_2 by reflexivity.
  apply greedy_prefix; [exact Hname|].
  rewrite greedy_fallback.
  - cbn [run quantified]. unfold one. cbn [accepts].
    rewrite !bool_decide_eq_true_2 by reflexivity. cbn [run].
    now rewrite rev_consumed.
  - intros a b Hs Ha. cbn [run quantified]. unfold one at 1.
    destruct b as [|c' b']; [reflexivity|]. cbn [accepts].
    rewrite bool_decide_eq_false_2; [reflexivity|].
    destruct a as [|y a]; [done|]. rewrite append_String in Hs.
    injection Hs as _ Hs.
    apply (lacks_suffix dquote (String " " rest) a (String c' b') c' b');
      [exact Hrest | exact Hs | reflexivity].
Qed.

(** The token of a header: the text of the class after the first [ nid=]. *)
Lemma nid_search pre : forall pos tok tail,
  not_before " nid=" pre (" nid=" ++ tok ++ tail) = true ->
  tok <> EmptyString -> all_in (accepts nid_class) tok = true ->
  stops (accepts nid_class) tail = true ->
  search NID_PATTERN pos (pre ++ " nid=" ++ tok ++ tail) = Some [tok].
Proof.
  induction pre as [|c pre IH]; intros pos tok tail Hnb Hne Hall Hstop.
  - change (EmptyString ++ " nid=" ++ tok ++ tail)%string
      with (" nid=" ++ tok ++ tail)%string.
    assert (run NID_PATTERN pos (" nid=" ++ tok ++ tail) [] = Some [tok]) as Hrun.
    { unfold NID_PATTERN. rewrite run_lit. cbn [run].
      destruct tok as [|x tok]; [done|]. simpl in Hall.
      apply andb_prop in Hall as [Hx Hall]. rewrite append_String.
      apply plus_max; [exact Hx | exact Hall | exact Hstop|].
      cbn [run].
      change (Str.rev_app tok (String x EmptyString))
        with (Str.rev_app (String x tok) EmptyString).
      now rewrite rev_consumed. }
    change (" nid=" ++ tok ++ tail)%string
      with (String " " ("nid=" ++ tok ++ tail)) in *.
    cbn [search]. now rewrite Hrun.
  - cbn [not_before] in Hnb. apply andb_prop in Hnb as [Hhere Hnb].
    apply negb_true_iff in Hhere.
    rewrite append_String in *. cbn [search].
    unfold NID_PATTERN at 1. rewrite (run_lit_fail _ _ _ _ _ Hhere).
    now apply IH.
Qed.

Lemma nid_match pre tok tail :
  not_before " nid=" pre (" nid=" ++ tok ++ tail) = true ->
  tok <> EmptyString -> all_in (accepts nid_class) tok = true ->
  stops (accepts nid_class) tail = true ->
  exec NID_PATTERN (pre ++ " nid=" ++ tok ++ tail) = Some [tok].
Proof. apply nid_search. Qed.

(** X5. A header line made of a quoted name without line terminator, some
    text without double quote, the first token [ nid=] of the line with a
    non-empty text of the class, and a rest that stops the class, appends
    one new thread to the threads of the dump and makes it the current
    thread; its name is the trimmed name, its id is [parseInt] of the token
    in base 10, and it has no status, no lock and no frame.  The objects of
    before are unchanged. *)
Theorem header_line_creates_thread
    name mid tok tail d p
    (Hname : all_in is_dot name = true)
    (Hquote : lacks dquote (mid ++ " nid=" ++ tok ++ tail) = true)
    (Hspace : String.prefix " " (mid ++ " nid=" ++ tok ++ tail) = true)
    (Hfirst : not_before " nid=" (String dquote (name ++ String dquote mid))
                (" nid=" ++ tok ++ tail) = true)
    (Htok : all_in (accepts nid_class) tok = true) (Hsome : tok <> EmptyString)
    (Htail : stops (accepts nid_class) tail = true) :
  parseLine (header_text name mid tok tail) d p
  = (ThreadDump.set_threads (ThreadDump.threads d ++ [length (thread_store p)]) d,
     mkProc (thread_store p ++
               [Thread.mk (Str.parseInt10 tok) (Str.trim name) None [] [] None []])
            (lock_store p) (Some (length (thread_store p))) (console p)).
Proof.
  assert (matchOne (header_text name mid tok tail) NAME_PATTERN = name) as Hn.
  { unfold header_text.
    destruct (mid ++ " nid=" ++ tok ++ tail)%string as [|c rest] eqn:E;
      [discriminate Hspace|].
    change (String.prefix " " (String c rest))
      with (if ascii_dec " " c then String.prefix EmptyString rest else false)
      in Hspace.
    destruct (ascii_dec " " c) as [<-|]; [|discriminate Hspace].
    unfold matchOne. rewrite name_match; [reflexivity | exact Hname|].
    simpl in Hquote. exact Hquote. }
  assert (matchOne (header_text name mid tok tail) NID_PATTERN = tok) as Hi.
  { unfold header_text, matchOne.
    replace (String dquote (name ++ String dquote (mid ++ " nid=" ++ tok ++ tail)))
      with (String dquote (name ++ String dquote mid) ++ " nid=" ++ tok ++ tail)%string.
    - now rewrite nid_match.
    - rewrite append_String. f_equal. rewrite append_assoc.
      now rewrite append_String. }
  unfold parseLine.
  assert (Str.startsWith (header_text name mid tok tail) THREAD_HEADER_PREFIX = true)
    as -> by (apply startsWith_iff; eexists; reflexivity).
  now rewrite parseThreadHeader_eq, Hn, Hi.
Qed.

Lemma header_line_creates_thread_witness :
  parseLine
    (header_text "main" " #1 prio=5 os_prio=0 tid=0x00007f3c" "0x1a2b" " runnable")
    ThreadDump.new fresh
  = (ThreadDump.set_threads [0] ThreadDump.new,
     mkProc [Thread.mk (Str.Num 0) "main" None [] [] None []] [] (Some 0) []).
Proof.
  apply (header_line_creates_thread "main" " #1 prio=5 os_prio=0 tid=0x00007f3c"
           "0x1a2b" " runnable" ThreadDump.new fresh);
    first [reflexivity | discriminate].
Defined.









(** ** The pass over the lines *)

Lemma parseLines_app l1 : forall l2 d p,
  parseLines (l1 ++ l2) d p =
    parseLines l2 (parseLines l1 d p).1 (parseLines l1 d p).2.
Proof.
  induction l1 as [|line l1 IH]; intros l2 d p; simpl; [reflexivity|].
  destruct (parseLine line d p) as [d1 p1]. apply IH.
Qed.

(** X7. In a process whose cursor is unset, as in one that has parsed
    nothing yet, the lines before the first thread header change nothing:
    neither the dump, nor the objects, nor the console. *)
Theorem preamble_is_ignored
    lines d p (Hcur : currentThread p = None)
    (Hpre : Forall (fun line => is_header line = false) lines) :
  parseLines lines d p = (d, p).
Proof.
  induction Hpre as [|line lines Hline _ IH]; simpl; [reflexivity|].
  unfold parseLine. unfold is_header in Hline. rewrite Hline.
  destruct (truthy line); [|exact IH].
  unfold parseStackLine. rewrite Hcur. exact IH.
Qed.

Lemma preamble_is_ignored_witness :
  parseLines ["Full thread dump OpenJDK 64-Bit Server VM:"; EmptyString;
              "   - locked <0x1> (a A)"; "   at a.B.c(B.java:1)"]
    ThreadDump.new fresh
  = (ThreadDump.new, fresh).
Proof.
  apply preamble_is_ignored; [reflexivity|]. repeat constructor.
Defined.

Lemma split_lines_from_newline s : forall cur,
  Str.split_lines_from cur (s ++ newline)
  = Str.split_lines_from cur s ++ [EmptyString].
Proof.
  induction s as [|c s IH]; intros cur.
  - reflexivity.
  - rewrite append_String. simpl. destruct (Str.code c =? 10)%N; simpl; now rewrite IH.
Qed.

Lemma parseLines_skip_empty lines : forall d p,
  parseLines (List.filter truthy lines) d p = parseLines lines d p.
Proof.
  induction lines as [|line lines IH]; intros d p; simpl; [reflexivity|].
  destruct (truthy line) eqn:Ht.
  - simpl. destruct (parseLine line d p). apply IH.
  - assert (parseLine line d p = (d, p)) as ->; [|apply IH].
    unfold parseLine. rewrite Ht.
    unfold truthy in Ht. apply negb_false_iff, bool_decide_eq_true in Ht. now subst.
Qed.

(** X8. Empty lines do not count: removing them from the lines, or adding
    a newline at the end of the text, does not change what the parser
    returns. *)
Theorem empty_lines_do_not_count :
  (forall lines d p,
     parseLines (List.filter truthy lines) d p = parseLines lines d p)
  /\ (forall fileName text p,
        parseThreadDump fileName (text ++ newline) p
        = parseThreadDump fileName text p).
Proof.
  split; [exact parseLines_skip_empty|].
  intros fileName text p. unfold parseThreadDump, Str.split_lines.
  rewrite split_lines_from_newline, parseLines_app.
  destruct (parseLines (Str.split_lines_from EmptyString text) _ p) as [d1 p1].
  reflexivity.
Qed.

(** ** The objects of a dump *)

Lemma extends_by_refl d p : extends_by d p d p 0 0.
Proof.
  unfold extends_by. simpl. rewrite !app_nil_r. repeat split; lia.
Qed.

Lemma extends_by_trans d1 p1 d2 p2 d3 p3 k m k' m' :
  extends_by d1 p1 d2 p2 k m -> extends_by d2 p2 d3 p3 k' m' ->
  extends_by d1 p1 d3 p3 (k + k') (m + m').
Proof.
  intros (Ht & Hlt & Hl & Hll) (Ht' & Hlt' & Hl' & Hll').
  unfold extends_by. rewrite Ht', Ht, Hl', Hl, Hlt', Hll', Hlt, Hll.
  rewrite <- !app_assoc, !seq_app. repeat split; first [reflexivity | lia].
Qed.

Lemma touch_lengths t f l g p :
  length (thread_store (touch t f l g p)) = length (thread_store p)
  /\ length (lock_store (touch t f l g p)) = length (lock_store p).
Proof. unfold touch, upd_thread, upd_lock. cbn. now rewrite !length_alter. Qed.

Lemma getOrCreateLock_extends d i c p l locks' p1 :
  getOrCreateLock (ThreadDump.locks d) i c p = (l, locks', p1) ->
  exists m, extends_by d p (ThreadDump.set_locks locks' d) p1 0 m.
Proof.
  intros Hcall.
  destruct (getOrCreateLock_cases _ _ _ _ _ _ _ Hcall)
    as [(_ & -> & ->)|(_ & -> & -> & ->)].
  - exists 0. destruct d. apply extends_by_refl.
  - exists 1. unfold extends_by. cbn. rewrite length_app. simpl.
    rewrite app_nil_r. repeat split; lia.
Qed.

Lemma touch_extends d p d' p' k m t f l g :
  extends_by d p d' p' k m -> extends_by d p d' (touch t f l g p') k m.
Proof.
  intros (Ht & Hlt & Hl & Hll). destruct (touch_lengths t f l g p') as [E1 E2].
  unfold extends_by. rewrite E1, E2. auto.
Qed.

(** A line allocates one thread if it is a header, and at most one lock. *)
Lemma perform_extends a d p :
  exists m,
    extends_by d p (perform a d p).1 (perform a d p).2
      (match a with Header _ => 1 | _ => 0 end) m.
Proof.
  destruct a as [|msg|header|t frame|t st|t i c|t i c|t i c]; cbn [perform fst snd].
  - exists 0. apply extends_by_refl.
  - exists 0. unfold extends_by. cbn. rewrite !app_nil_r. repeat split; lia.
  - exists 0. rewrite parseThreadHeader_eq. unfold extends_by. cbn.
    rewrite length_app, !app_nil_r. simpl. repeat split; lia.
  - exists 0. rewrite upd_thread_touch. apply touch_extends, extends_by_refl.
  - exists 0. rewrite upd_thread_touch. apply touch_extends, extends_by_refl.
  - with_lock d p i c l locks' p1 Hcall. rewrite (record_wait_touch _ _ _ _ _ _ _ _ Hcall).
    destruct (getOrCreateLock_extends _ _ _ _ _ _ _ Hcall) as [m Hm].
    exists m. now apply touch_extends.
  - locked_cases p t i Hw; [exists 0; apply extends_by_refl|].
    with_lock d p i c l locks' p1 Hcall.
    rewrite (record_locked_touch _ _ _ _ _ _ _ _ Hw Hcall).
    destruct (getOrCreateLock_extends _ _ _ _ _ _ _ Hcall) as [m Hm].
    exists m. now apply touch_extends.
  - with_lock d p i c l locks' p1 Hcall. rewrite (record_held_touch _ _ _ _ _ _ _ _ Hcall).
    destruct (getOrCreateLock_extends _ _ _ _ _ _ _ Hcall) as [m Hm].
    exists m. now apply touch_extends.
Qed.

Lemma action_of_header line p :
  match action_of line p with Header _ => 1 | _ => 0 end
  = if is_header line then 1 else 0.
Proof.
  unfold action_of, is_header.
  destruct (Str.startsWith line THREAD_HEADER_PREFIX); [reflexivity|].
  destruct (truthy line); [|reflexivity].
  destruct (currentThread p) as [t|]; [|reflexivity].
  unfold stack_action_of.
  destruct (truthy (matchOne line FRAME_PATTERN)); [reflexivity|].
  destruct (truthy (matchOne line THREAD_STATE_PATTERN)); [reflexivity|].
  destruct (sync_of line) as [|state [|lockId [|className [|x xs]]]].
  1-3, 5:
    destruct (held_of line) as [|i [|c [|y ys]]]; try reflexivity;
    destruct (truthy (matchOne line LOCKED_OWNABLE_SYNCHRONIZERS_PATTERN)
              || truthy (matchOne line NONE_HELD_PATTERN)
              || truthy (matchOne line JNI_REFERENCES_PATTERN)); reflexivity.
  destruct (is_wait_verb state); [reflexivity|].
  destruct (bool_decide (state = "locked")); [reflexivity|].
  destruct (bool_decide (state = "eliminated")); reflexivity.
Qed.

Lemma parseLines_extends lines : forall d p,
  exists m,
    extends_by d p (parseLines lines d p).1 (parseLines lines d p).2
      (length (List.filter is_header lines)) m.
Proof.
  induction lines as [|line lines IH]; intros d p; simpl.
  - exists 0. apply extends_by_refl.
  - rewrite parseLine_perform.
    destruct (perform_extends (action_of line p) d p) as [m1 H1].
    rewrite action_of_header in H1.
    destruct (perform (action_of line p) d p) as [d1 p1]. cbn [fst snd] in H1.
    destruct (IH d1 p1) as [m2 H2]. exists (m1 + m2).
    pose proof (extends_by_trans _ _ _ _ _ _ _ _ _ _ H1 H2) as H.
    destruct (is_header line); simpl; exact H.
Qed.


(** ** The resolver, continued *)

(** A call of the body that returns either did nothing or is a write. *)
Lemma resolve_thread_shape t p p' :
  resolve_thread t p = inr p' ->
  (get_thread p t = None /\ p' = p)
  \/ exists th l, get_thread p t = Some th
       /\ Thread.classicalLocksHeld th !! 0 = Some l
       /\ p' = touch t (resolved_thread l) l (resolved_lock t) p.
Proof.
  intros Hres. destruct (get_thread p t) as [th|] eqn:Hth.
  - destruct (Thread.classicalLocksHeld th !! 0) as [l|] eqn:Hl.
    + right. rewrite (resolve_thread_touch _ _ _ _ Hth Hl) in Hres.
      injection Hres as <-. eauto.
    + unfold resolve_thread in Hres. rewrite Hth, Hl in Hres. discriminate.
  - unfold resolve_thread in Hres. rewrite Hth in Hres. injection Hres as <-. now left.
Qed.

(** What every call of the body keeps, the loop keeps. *)
Lemma forEach_resolve_keeps (P : Proc -> Prop) :
  (forall t p p', P p -> resolve_thread t p = inr p' -> P p') ->
  forall ts p p', P p -> forEach_resolve ts p = inr p' -> P p'.
Proof.
  intros Hstep ts. induction ts as [|t ts IH]; intros p p' HP Hrun; simpl in Hrun.
  - now injection Hrun as <-.
  - destruct (resolve_thread t p) as [e|p1] eqn:Hres; [discriminate|]. eauto.
Qed.

Lemma resolve_thread_lengths t p p' :
  resolve_thread t p = inr p' ->
  length (thread_store p') = length (thread_store p)
  /\ length (lock_store p') = length (lock_store p).
Proof.
  intros Hres. destruct (resolve_thread_shape _ _ _ Hres)
    as [[_ ->]|(th & l & _ & _ & ->)]; [done | apply touch_lengths].
Qed.

Lemma forEach_resolve_lengths ts p p' :
  forEach_resolve ts p = inr p' ->
  length (thread_store p') = length (thread_store p)
  /\ length (lock_store p') = length (lock_store p).
Proof.
  apply (forEach_resolve_keeps
           (fun q => length (thread_store q) = length (thread_store p)
                     /\ length (lock_store q) = length (lock_store p))); [|done].
  intros t q q' [E1 E2] Hres.
  destruct (resolve_thread_lengths _ _ _ Hres) as [E1' E2']. split; congruence.
Qed.

(** The part of [parseThreadDump] after the lines. *)
Lemma parseThreadDump_inr fileName text p d' p' :
  parseThreadDump fileName text p = inr (d', p') ->
  exists d1 p1,
    parseLines (Str.split_lines text)
      (ThreadDump.set_date (getDateFromFilename fileName FILENAME_DATE_PATTERN)
         ThreadDump.new) p = (d1, p1)
    /\ d' = d1
    /\ forEach_resolve
         (List.filter (has_valid_status p1)
            (List.filter (no_wait_target p1) (ThreadDump.threads d1))) p1 = inr p'.
Proof.
  unfold parseThreadDump, identifyAnonymousSynchronizers.
  destruct (parseLines _ _ p) as [d1 p1].
  destruct (forEach_resolve _ p1) as [e|p2] eqn:Hres; [discriminate|].
  intros [= <- <-]. eauto.
Qed.

(** The same for a whole call that returns. *)
Lemma parseThreadDump_extends fileName text p d' p' :
  parseThreadDump fileName text p = inr (d', p') ->
  exists m,
    ThreadDump.threads d'
    = seq (length (thread_store p))
        (length (List.filter is_header (Str.split_lines text)))
    /\ length (thread_store p')
       = length (thread_store p)
         + length (List.filter is_header (Str.split_lines text))
    /\ ThreadDump.locks d' = seq (length (lock_store p)) m
    /\ length (lock_store p') = length (lock_store p) + m.
Proof.
  intros H. apply parseThreadDump_inr in H as (d1 & p1 & Hrun & -> & Hres).
  destruct (parseLines_extends (Str.split_lines text)
              (ThreadDump.set_date (getDateFromFilename fileName FILENAME_DATE_PATTERN)
                 ThreadDump.new) p) as [m Hm].
  rewrite Hrun in Hm. destruct Hm as (Ht & Hlt & Hl & Hll).
  destruct (forEach_resolve_lengths _ _ _ Hres) as [E1 E2].
  exists m. cbn in Ht, Hlt, Hl, Hll. repeat split; first [assumption | lia].
Qed.

(** X9. The threads of the dump are in the order of the thread headers of
    the text, one new thread per header: the lines append to the threads of
    the dump the addresses of the threads they allocate, as many as there
    are lines that start with a double quote, and to its locks the addresses
    of the locks they allocate; the resolver allocates nothing, so that the
    dump a call returns has exactly the objects the call allocated. *)
Theorem one_thread_per_header fileName text p d' p'
    (Hcall : parseThreadDump fileName text p = inr (d', p')) :
  (forall lines d q, exists m,
     extends_by d q (parseLines lines d q).1 (parseLines lines d q).2
       (length (List.filter is_header lines)) m)
  /\ exists m,
       ThreadDump.threads d'
       = seq (length (thread_store p))
           (length (List.filter is_header (Str.split_lines text)))
       /\ length (thread_store p')
          = length (thread_store p)
            + length (List.filter is_header (Str.split_lines text))
       /\ ThreadDump.locks d' = seq (length (lock_store p)) m
       /\ length (lock_store p') = length (lock_store p) + m.
Proof.
  split; [intros lines d q; apply parseLines_extends|].
  now apply (parseThreadDump_extends fileName).
Qed.

(** ** References between the objects *)

Lemma touch_thread_valid t f l g p x :
  is_Some (get_thread p x) -> is_Some (get_thread (touch t f l g p) x).
Proof.
  intros [th Hth]. destruct (touch_thread_fwd t f l g p _ _ Hth) as (th' & -> & _). eauto.
Qed.

Lemma touch_lock_refs_ok t f l g p :
  lock_refs_ok p -> is_Some (get_thread p t) ->
  (forall lk x, Lock.owner (g lk) = Some x \/ x ∈ Lock.waiting (g lk) ->
     (Lock.owner lk = Some x \/ x ∈ Lock.waiting lk) \/ x = t) ->
  lock_refs_ok (touch t f l g p).
Proof.
  intros Hinv Ht Hg l' lk' x Hlk' Hx. apply touch_thread_valid.
  destruct (touch_lock_inv _ _ _ _ _ _ _ Hlk') as (lk & Hlk & [->|[-> ->]]).
  - eauto.
  - destruct (Hg _ _ Hx) as [Hold| ->]; eauto.
Qed.

Lemma perform_lock_refs_ok a d p :
  on_cursor a p -> store_ok p ->
  lock_refs_ok p -> lock_refs_ok (perform a d p).2.
Proof.
  intros Hc (Hcur & _) Hinv.
  assert (forall i c l locks' p1,
            getOrCreateLock (ThreadDump.locks d) i c p = (l, locks', p1) ->
            lock_refs_ok p1) as Hgoc.
  { intros i c l locks' p1 Hcall l' lk' x Hlk' Hx.
    rewrite (getOrCreateLock_threads _ _ _ _ _ _ _ Hcall).
    destruct (getOrCreateLock_lock_inv _ _ _ _ _ _ _ Hcall _ _ Hlk') as [Hold|[Hw Ho]].
    - eauto.
    - rewrite Hw, Ho in Hx. destruct Hx as [Hx|Hx]; [discriminate | inversion Hx]. }
  destruct a as [|msg|header|t frame|t st|t i c|t i c|t i c]; cbn [perform snd];
    cbn [on_cursor] in Hc.
  - exact Hinv.
  - exact Hinv.
  - intros l lk x. rewrite header_get_lock. intros Hlk Hx.
    destruct (Hinv _ _ _ Hlk Hx) as [th Hth]. exists th. now apply header_thread_fwd.
  - rewrite upd_thread_touch. apply touch_lock_refs_ok; auto.
  - rewrite upd_thread_touch. apply touch_lock_refs_ok; auto.
  - with_lock d p i c l locks' p1 Hcall. rewrite (record_wait_touch _ _ _ _ _ _ _ _ Hcall).
    apply touch_lock_refs_ok; [now apply (Hgoc _ _ _ _ _ Hcall)| |].
    + rewrite (getOrCreateLock_threads _ _ _ _ _ _ _ Hcall). auto.
    + intros lk x [Hx|Hx]; [auto|]. cbn in Hx.
      apply elem_of_app in Hx as [Hx|Hx]; [auto|].
      apply list_elem_of_singleton in Hx. auto.
  - locked_cases p t i Hw; [exact Hinv|].
    with_lock d p i c l locks' p1 Hcall.
    rewrite (record_locked_touch _ _ _ _ _ _ _ _ Hw Hcall).
    apply touch_lock_refs_ok; [now apply (Hgoc _ _ _ _ _ Hcall)| |].
    + rewrite (getOrCreateLock_threads _ _ _ _ _ _ _ Hcall). auto.
    + intros lk x [Hx|Hx]; [|auto]. cbn in Hx. injection Hx as <-. auto.
  - with_lock d p i c l locks' p1 Hcall. rewrite (record_held_touch _ _ _ _ _ _ _ _ Hcall).
    apply touch_lock_refs_ok; [now apply (Hgoc _ _ _ _ _ Hcall)| |].
    + rewrite (getOrCreateLock_threads _ _ _ _ _ _ _ Hcall). auto.
    + intros lk x [Hx|Hx]; [|auto]. cbn in Hx. injection Hx as <-. auto.
Qed.

Lemma perform_refs_ok a d p :
  on_cursor a p -> refs_ok p -> refs_ok (perform a d p).2.
Proof.
  intros Hc (Hs & Hh & Hl). repeat split.
  - now apply perform_store_ok.
  - now apply perform_store_ok.
  - now apply perform_store_ok.
  - now apply perform_held_ok.
  - now apply perform_lock_refs_ok.
Qed.

Lemma parseLines_refs_ok lines : forall d p,
  refs_ok p -> refs_ok (parseLines lines d p).2.
Proof.
  induction lines as [|line lines IH]; intros d p Hinv; simpl; [exact Hinv|].
  rewrite parseLine_perform.
  pose proof (perform_refs_ok (action_of line p) d p (action_of_on_cursor line p) Hinv)
    as H.
  destruct (perform (action_of line p) d p) as [d1 p1]. now apply IH.
Qed.

Lemma resolved_thread_held l th x :
  x ∈ Thread.locksHeld (resolved_thread l th) -> x ∈ Thread.locksHeld th.
Proof. cbn. apply splice1_subset. Qed.

Lemma resolve_thread_refs_ok t p p' :
  refs_ok p -> resolve_thread t p = inr p' -> refs_ok p'.
Proof.
  intros (Hs & Hh & Hl) Hres. split; [|split].
  - now apply (resolve_thread_store_ok t p p').
  - destruct (resolve_thread_shape _ _ _ Hres) as [[_ ->]|(th & l & Hth & Hl0 & ->)];
      [done|].
    apply touch_held_ok; [done|]. intros th' x Hx. left.
    now apply (resolved_thread_held l).
  - destruct (resolve_thread_shape _ _ _ Hres) as [[_ ->]|(th & l & Hth & Hl0 & ->)];
      [done|].
    apply touch_lock_refs_ok; [done | eauto |].
    intros lk x [Hx|Hx]; [discriminate Hx|]. cbn in Hx.
    apply elem_of_app in Hx as [Hx|Hx]; [auto|].
    apply list_elem_of_singleton in Hx. auto.
Qed.

Lemma parseThreadDump_refs_ok fileName text p d' p' :
  refs_ok p -> parseThreadDump fileName text p = inr (d', p') -> refs_ok p'.
Proof.
  intros Hinv H. apply parseThreadDump_inr in H as (d1 & p1 & Hrun & -> & Hres).
  pose proof (parseLines_refs_ok (Str.split_lines text)
                (ThreadDump.set_date
                   (getDateFromFilename fileName FILENAME_DATE_PATTERN)
                   ThreadDump.new) p Hinv) as H1.
  rewrite Hrun in H1.
  revert Hres. apply forEach_resolve_keeps; [|exact H1].
  intros t q q'. apply resolve_thread_refs_ok.
Qed.

Lemma fresh_refs_ok : refs_ok fresh.
Proof.
  split; [exact fresh_store_ok|]. split.
  - intros t th l H. discriminate H.
  - intros l lk t H. discriminate H.
Qed.

(** X10. In a process that has parsed nothing yet, the dump a call returns
    has no dangling reference: every thread and every lock of the process is
    in the dump, every lock a thread holds, holds as a classical lock or
    waits for is a lock of the dump, and the owner and the waiting threads of
    every lock are threads of the dump. *)
Theorem first_dump_is_closed fileName text d p
    (Hcall : parseThreadDump fileName text fresh = inr (d, p)) :
  dump_closed d p.
Proof.
  destruct (parseThreadDump_refs_ok _ _ _ _ _ fresh_refs_ok Hcall)
    as ((_ & Htgt & Hcl) & Hheld & Hlock).
  destruct (parseThreadDump_extends _ _ _ _ _ Hcall) as (m & Ht & Hlt & Hl & Hll).
  cbn in Ht, Hlt, Hl, Hll.
  assert (forall t, is_Some (get_thread p t) -> t ∈ ThreadDump.threads d) as Hin_t.
  { intros t [th Hth]. apply lookup_lt_Some in Hth.
    rewrite Ht. apply elem_of_seq. lia. }
  assert (forall l, is_Some (get_lock p l) -> l ∈ ThreadDump.locks d) as Hin_l.
  { intros l [lk Hlk]. apply lookup_lt_Some in Hlk.
    rewrite Hl. apply elem_of_seq. lia. }
  split.
  - intros t th Hth. split; [eauto|].
    intros l [Hx|[Hx|Hx]]; apply Hin_l; eauto.
  - intros l lk Hlk. split; [eauto|].
    intros t Hx. apply Hin_t. eauto.
Qed.

Lemma first_dump_is_closed_witness :
  dump_closed (dump_after "dump.txt" two_owners_document fresh)
    (state_after "dump.txt" two_owners_document fresh).
Proof.
  apply (first_dump_is_closed "dump.txt" two_owners_document).
  vm_compute. reflexivity.
Defined.

Lemma one_thread_per_header_witness :
  (forall lines d q, exists m,
     extends_by d q (parseLines lines d q).1 (parseLines lines d q).2
       (length (List.filter is_header lines)) m)
  /\ exists m,
       ThreadDump.threads (dump_after "dump.txt" two_owners_document fresh)
       = seq 0 (length (List.filter is_header (Str.split_lines two_owners_document)))
       /\ length (thread_store (state_after "dump.txt" two_owners_document fresh))
          = 0 + length (List.filter is_header (Str.split_lines two_owners_document))
       /\ ThreadDump.locks (dump_after "dump.txt" two_owners_document fresh) = seq 0 m
       /\ length (lock_store (state_after "dump.txt" two_owners_document fresh))
          = 0 + m.
Proof.
  apply (one_thread_per_header "dump.txt" two_owners_document fresh).
  vm_compute. reflexivity.
Defined.

(** ** One lock per id *)

Lemma evolves_ids_kept p p' : evolves p p' -> ids_kept p p'.
Proof.
  intros [Hl _] l lk Hlk. destruct (Hl _ _ Hlk) as (lk' & ? & ? & _). eauto.
Qed.

Lemma touch_ids_kept t f l g p :
  (forall lk, Lock.id (g lk) = Lock.id lk) -> ids_kept p (touch t f l g p).
Proof.
  intros Hg l' lk Hlk.
  destruct (touch_lock_fwd t f l g p _ _ Hlk) as (lk' & -> & [[_ ->]|[_ ->]]); eauto.
Qed.

Lemma ids_distinct_kept d p p' :
  dump_ok d p -> ids_kept p p' -> ids_distinct d p -> ids_distinct d p'.
Proof.
  intros Hok Hkept Hinv i j li lj lki lkj Hi Hj Hli Hlj Hid.
  destruct (Hok li) as [ki Hki]; [apply list_elem_of_lookup; eauto|].
  destruct (Hok lj) as [kj Hkj]; [apply list_elem_of_lookup; eauto|].
  destruct (Hkept _ _ Hki) as (ki' & Hki' & Ei).
  destruct (Hkept _ _ Hkj) as (kj' & Hkj' & Ej).
  apply (Hinv i j li lj ki kj); auto. congruence.
Qed.

Lemma dump_ok_kept d p p' : dump_ok d p -> ids_kept p p' -> dump_ok d p'.
Proof.
  intros Hok Hkept l Hl. destruct (Hok _ Hl) as [lk Hlk].
  destruct (Hkept _ _ Hlk) as (lk' & -> & _). eauto.
Qed.

(** The registry adds a lock only for an id that no lock of the dump has. *)
Lemma getOrCreateLock_ids_distinct d p i c l locks' p1 :
  dump_ok d p -> ids_distinct d p ->
  getOrCreateLock (ThreadDump.locks d) i c p = (l, locks', p1) ->
  ids_distinct (ThreadDump.set_locks locks' d) p1.
Proof.
  intros Hok Hinv Hcall.
  destruct (getOrCreateLock_cases _ _ _ _ _ _ _ Hcall)
    as [(_ & -> & ->)|(Hnone & Hl & -> & Hp1)]; [destruct d; exact Hinv|].
  assert (forall x k, ThreadDump.locks d !! x = Some k ->
            exists lk, get_lock p k = Some lk /\ get_lock p1 k = Some lk
                       /\ Lock.id lk <> i) as Hold.
  { intros x k Hx. assert (k ∈ ThreadDump.locks d) as Hin
      by (apply list_elem_of_lookup; eauto).
    destruct (Hok _ Hin) as [lk Hlk]. exists lk. split; [done|].
    split; [now apply (getOrCreateLock_old _ _ _ _ _ _ _ Hcall)|].
    now apply (find_lock_None p (ThreadDump.locks d) i k lk). }
  assert (get_lock p1 l = Some (Lock.mk i c None [])) as Hnew.
  { rewrite Hp1, Hl. unfold get_lock. cbn [lock_store].
    rewrite lookup_app_r by lia. now rewrite Nat.sub_diag. }
  intros x y lx ly kx ky Hx Hy Hkx Hky Hid.
  cbn [ThreadDump.set_locks ThreadDump.locks] in Hx, Hy.
  apply lookup_snoc in Hx as [Hx|[-> ->]]; apply lookup_snoc in Hy as [Hy|[-> ->]].
  - destruct (Hold _ _ Hx) as (kx' & Hkx' & Hkx1 & _).
    destruct (Hold _ _ Hy) as (ky' & Hky' & Hky1 & _).
    apply (Hinv x y lx ly kx' ky'); auto. congruence.
  - destruct (Hold _ _ Hx) as (kx' & _ & Hkx1 & Hne).
    rewrite Hnew in Hky. injection Hky as <-. cbn in Hid. congruence.
  - destruct (Hold _ _ Hy) as (ky' & _ & Hky1 & Hne).
    rewrite Hnew in Hkx. injection Hkx as <-. cbn in Hid. congruence.
  - reflexivity.
Qed.

Lemma perform_ids_distinct a d p :
  dump_ok d p -> ids_distinct d p ->
  ids_distinct (perform a d p).1 (perform a d p).2.
Proof.
  intros Hok Hinv.
  assert (forall i c l locks' p1 t f g,
            getOrCreateLock (ThreadDump.locks d) i c p = (l, locks', p1) ->
            (forall lk, Lock.id (g lk) = Lock.id lk) ->
            ids_distinct (ThreadDump.set_locks locks' d) (touch t f l g p1)) as Hgoc.
  { intros i c l locks' p1 t f g Hcall Hg.
    apply (ids_distinct_kept _ p1).
    - now apply (getOrCreateLock_dump_ok _ _ _ _ _ _ _ Hcall).
    - now apply touch_ids_kept.
    - now apply (getOrCreateLock_ids_distinct d p i c l). }
  destruct a as [|msg|header|t frame|t st|t i c|t i c|t i c]; cbn [perform fst snd].
  - exact Hinv.
  - exact Hinv.
  - intros i j li lj lki lkj. rewrite header_locks, !header_get_lock. apply Hinv.
  - exact Hinv.
  - exact Hinv.
  - with_lock d p i c l locks' p1 Hcall. rewrite (record_wait_touch _ _ _ _ _ _ _ _ Hcall).
    apply (Hgoc _ _ _ _ _ _ _ _ Hcall). auto.
  - locked_cases p t i Hw; [exact Hinv|].
    with_lock d p i c l locks' p1 Hcall.
    rewrite (record_locked_touch _ _ _ _ _ _ _ _ Hw Hcall).
    apply (Hgoc _ _ _ _ _ _ _ _ Hcall). auto.
  - with_lock d p i c l locks' p1 Hcall. rewrite (record_held_touch _ _ _ _ _ _ _ _ Hcall).
    apply (Hgoc _ _ _ _ _ _ _ _ Hcall). auto.
Qed.

Lemma parseLines_ids_distinct lines : forall d p,
  dump_ok d p -> ids_distinct d p ->
  dump_ok (parseLines lines d p).1 (parseLines lines d p).2
  /\ ids_distinct (parseLines lines d p).1 (parseLines lines d p).2.
Proof.
  induction lines as [|line lines IH]; intros d p Hok Hinv; simpl; [auto|].
  rewrite parseLine_perform.
  pose proof (perform_dump_ok (action_of line p) d p Hok) as H1.
  pose proof (perform_ids_distinct (action_of line p) d p Hok Hinv) as H2.
  destruct (perform (action_of line p) d p) as [d1 p1]. now apply IH.
Qed.

Lemma resolve_thread_ids_kept t p p' :
  resolve_thread t p = inr p' -> ids_kept p p'.
Proof.
  intros Hres. destruct (resolve_thread_shape _ _ _ Hres)
    as [[_ ->]|(th & l & _ & _ & ->)].
  - intros l lk H. eauto.
  - now apply touch_ids_kept.
Qed.

(** X11. No two locks of the dump a call returns have the same id, and no
    lock is twice in the dump: the registry deduplicates by id, in whatever
    state the process was before the call. *)
Theorem one_lock_per_id fileName text p d' p'
    (Hcall : parseThreadDump fileName text p = inr (d', p')) :
  ids_distinct d' p' /\ NoDup (ThreadDump.locks d') /\ NoDup (ThreadDump.threads d').
Proof.
  destruct (parseThreadDump_extends _ _ _ _ _ Hcall) as (m & Ht & _ & Hl & _).
  split; [|split; [rewrite Hl | rewrite Ht]; apply NoDup_seq].
  apply parseThreadDump_inr in Hcall as (d1 & p1 & Hrun & -> & Hres).
  destruct (parseLines_ids_distinct (Str.split_lines text)
              (ThreadDump.set_date
                 (getDateFromFilename fileName FILENAME_DATE_PATTERN)
                 ThreadDump.new) p) as [Hok Hinv].
  { intros l H. inversion H. }
  { intros i j li lj lki lkj H. discriminate H. }
  rewrite Hrun in Hok, Hinv. cbn [fst snd] in Hok, Hinv.
  revert Hres.
  apply (forEach_resolve_keeps (fun q => dump_ok d1 q /\ ids_distinct d1 q));
    [|split; assumption].
  intros t q q' [Hq1 Hq2] Hres. pose proof (resolve_thread_ids_kept _ _ _ Hres) as Hk.
  split; [now apply (dump_ok_kept _ q) | now apply (ids_distinct_kept _ q)].
Qed.

(** ** The classical locks among the held locks *)

Lemma indexOf_Some x l : forall i,
  indexOf x l = Some i ->
  exists h1 h2, l = h1 ++ x :: h2 /\ (x ∉ h1) /\ length h1 = i.
Proof.
  induction l as [|y l IH]; intros i; simpl; [discriminate|].
  destruct (bool_decide (y = x)) eqn:E.
  - apply bool_decide_eq_true in E as ->. intros [= <-].
    exists [], l. repeat split. apply not_elem_of_nil.
  - apply bool_decide_eq_false in E.
    destruct (indexOf x l) as [j|] eqn:Hj; [|discriminate]. intros [= <-].
    destruct (IH j eq_refl) as (h1 & h2 & -> & Hnin & Hlen).
    exists (y :: h1), h2. repeat split; [|simpl; lia].
    intros Hin. apply elem_of_cons in Hin as [->|Hin]; [now elim E | now elim Hnin].
Qed.

Lemma indexOf_None x l : indexOf x l = None -> x ∉ l.
Proof.
  induction l as [|y l IH]; simpl; [intros _; apply not_elem_of_nil|].
  destruct (bool_decide (y = x)) eqn:E; [discriminate|].
  apply bool_decide_eq_false in E.
  destruct (indexOf x l) as [j|]; [discriminate|]. intros _ Hin.
  apply elem_of_cons in Hin as [->|Hin]; [now elim E | now apply IH].
Qed.

(** [indexOf] and [splice] take the first occurrence out. *)
Lemma splice1_first x l :
  x ∈ l ->
  exists h1 h2, l = h1 ++ x :: h2 /\ (x ∉ h1)
                /\ splice1 (indexOf x l) l = h1 ++ h2.
Proof.
  intros Hin. destruct (indexOf x l) as [i|] eqn:Hi.
  - destruct (indexOf_Some _ _ _ Hi) as (h1 & h2 & -> & Hnin & <-).
    exists h1, h2. repeat split; [done|]. simpl. apply delete_middle.
  - now apply indexOf_None in Hi.
Qed.

Lemma after_first_occurrence {A} (x : A) h1 : forall h2 k1 k2,
  h1 ++ x :: h2 = k1 ++ x :: k2 -> x ∉ h1 -> exists m, h2 = m ++ k2.
Proof.
  induction h1 as [|a h1 IH]; intros h2 k1 k2 Heq Hnin.
  - destruct k1 as [|y k1]; simpl in Heq.
    + injection Heq as <-. now exists [].
    + injection Heq as _ ->. exists (k1 ++ [x]). now rewrite <- app_assoc.
  - destruct k1 as [|y k1]; simpl in Heq.
    + injection Heq as -> _. elim Hnin. left.
    + injection Heq as _ Heq. apply (IH _ _ _ Heq).
      intros Hin. apply Hnin. now right.
Qed.

Lemma sublist_without_first (x : nat) c h1 h2 :
  sublist (x :: c) (h1 ++ x :: h2) -> x ∉ h1 -> sublist c (h1 ++ h2).
Proof.
  intros Hsub Hnin. apply sublist_cons_l in Hsub as (k1 & k2 & Heq & Hc).
  destruct (after_first_occurrence _ _ _ _ _ Heq Hnin) as [m ->].
  now apply sublist_inserts_l, sublist_inserts_l.
Qed.

(** What the resolver makes of a thread whose first classical lock is [l]. *)
Lemma resolved_thread_lists l c th :
  Thread.classicalLocksHeld th = l :: c ->
  sublist (l :: c) (Thread.locksHeld th) ->
  exists h1 h2,
    Thread.locksHeld th = h1 ++ l :: h2 /\ (l ∉ h1)
    /\ resolved_thread l th
       = Thread.mk (Thread.id th) (Thread.name th) (Thread.status th)
           (h1 ++ h2) c (Some l) (Thread.stackTrace th)
    /\ sublist c (h1 ++ h2).
Proof.
  intros Hcl Hsub.
  assert (l ∈ Thread.locksHeld th) as Hin.
  { apply (sublist_subseteq _ _ Hsub). left. }
  destruct (splice1_first _ _ Hin) as (h1 & h2 & Hheld & Hnin & Hsp).
  exists h1, h2. split; [done|]. split; [done|]. split.
  - unfold resolved_thread. cbn. rewrite Hsp, Hcl. cbn.
    rewrite bool_decide_eq_true_2 by reflexivity. reflexivity.
  - rewrite Hheld in Hsub. now apply (sublist_without_first l).
Qed.

Lemma touch_classical_in_held t f l g p :
  classical_in_held p ->
  (forall th, get_thread p t = Some th ->
     sublist (Thread.classicalLocksHeld th) (Thread.locksHeld th) ->
     sublist (Thread.classicalLocksHeld (f th)) (Thread.locksHeld (f th))) ->
  classical_in_held (touch t f l g p).
Proof.
  intros Hinv Hf t' th' Hth'.
  destruct (touch_thread_inv _ _ _ _ _ _ _ Hth') as (th & Hth & [->|[-> ->]]); eauto.
Qed.

Lemma perform_classical_in_held a d p :
  classical_in_held p -> classical_in_held (perform a d p).2.
Proof.
  intros Hinv.
  assert (forall i c l locks' p1,
            getOrCreateLock (ThreadDump.locks d) i c p = (l, locks', p1) ->
            classical_in_held p1) as Hgoc.
  { intros i c l locks' p1 Hcall t th.
    rewrite (getOrCreateLock_threads _ _ _ _ _ _ _ Hcall). apply Hinv. }
  destruct a as [|msg|header|t frame|t st|t i c|t i c|t i c]; cbn [perform snd].
  - exact Hinv.
  - exact Hinv.
  - intros t th Hth.
    destruct (header_thread_inv _ _ _ _ _ Hth) as [Hold|(_ & _ & Hh & Hc)]; [eauto|].
    rewrite Hh, Hc. constructor.
  - rewrite upd_thread_touch. apply touch_classical_in_held; auto.
  - rewrite upd_thread_touch. apply touch_classical_in_held; auto.
  - with_lock d p i c l locks' p1 Hcall. rewrite (record_wait_touch _ _ _ _ _ _ _ _ Hcall).
    apply touch_classical_in_held; [now apply (Hgoc _ _ _ _ _ Hcall) | auto].
  - locked_cases p t i Hw; [exact Hinv|].
    with_lock d p i c l locks' p1 Hcall.
    rewrite (record_locked_touch _ _ _ _ _ _ _ _ Hw Hcall).
    apply touch_classical_in_held; [now apply (Hgoc _ _ _ _ _ Hcall)|].
    intros th _ Hsub. cbn. now apply sublist_app.
  - with_lock d p i c l locks' p1 Hcall. rewrite (record_held_touch _ _ _ _ _ _ _ _ Hcall).
    apply touch_classical_in_held; [now apply (Hgoc _ _ _ _ _ Hcall)|].
    intros th _ Hsub. cbn. now apply sublist_inserts_r.
Qed.

Lemma parseLines_classical_in_held lines : forall d p,
  classical_in_held p -> classical_in_held (parseLines lines d p).2.
Proof.
  induction lines as [|line lines IH]; intros d p Hinv; simpl; [exact Hinv|].
  rewrite parseLine_perform.
  pose proof (perform_classical_in_held (action_of line p) d p Hinv) as H.
  destruct (perform (action_of line p) d p) as [d1 p1]. now apply IH.
Qed.

Lemma first_of_list {A} (l : list A) x : l !! 0 = Some x -> exists c, l = x :: c.
Proof. destruct l as [|y c]; [discriminate|]. intros [= ->]. eauto. Qed.

Lemma resolve_thread_classical_in_held t p p' :
  classical_in_held p -> resolve_thread t p = inr p' -> classical_in_held p'.
Proof.
  intros Hinv Hres.
  destruct (resolve_thread_shape _ _ _ Hres) as [[_ ->]|(th & l & Hth & Hl & ->)];
    [done|].
  apply touch_classical_in_held; [done|]. intros th' Hth' Hsub.
  assert (th' = th) as -> by congruence.
  destruct (first_of_list _ _ Hl) as [c Hc]. rewrite Hc in Hsub.
  destruct (resolved_thread_lists l c th Hc Hsub) as (h1 & h2 & _ & _ & -> & Hs).
  exact Hs.
Qed.

(** X12. The classical held locks of a thread are, in their order and with
    their repetitions, among its held locks: every line and the resolver
    keep it so.  (So the lock the resolver looks for in the held locks of a
    thread is there, and [splice] never gets the index [-1].) *)
Theorem classical_locks_are_held
    p (Hinv : classical_in_held p) :
  (forall lines d, classical_in_held (parseLines lines d p).2)
  /\ (forall fileName text d' p',
        parseThreadDump fileName text p = inr (d', p') -> classical_in_held p').
Proof.
  split; [intros lines d; now apply parseLines_classical_in_held|].
  intros fileName text d' p' H.
  apply parseThreadDump_inr in H as (d1 & p1 & Hrun & -> & Hres).
  pose proof (parseLines_classical_in_held (Str.split_lines text)
                (ThreadDump.set_date
                   (getDateFromFilename fileName FILENAME_DATE_PATTERN)
                   ThreadDump.new) p Hinv) as H1.
  rewrite Hrun in H1. revert Hres. apply forEach_resolve_keeps; [|exact H1].
  intros t q q'. apply resolve_thread_classical_in_held.
Qed.

Lemma fresh_classical_in_held : classical_in_held fresh.
Proof. intros t th H. discriminate H. Qed.

Lemma classical_locks_are_held_witness :
  (forall lines d, classical_in_held (parseLines lines d fresh).2)
  /\ (forall fileName text d' p',
        parseThreadDump fileName text fresh = inr (d', p') -> classical_in_held p').
Proof. exact (classical_locks_are_held fresh fresh_classical_in_held). Defined.

(** X13. The resolver on a thread whose first classical lock is [l]: the
    thread gets [l] as its wait-target, loses its first classical lock and
    the first occurrence of [l] among its held locks, and keeps its other
    fields; the lock loses its owner, whoever it was, and gets the thread at
    the end of its waiting list; the other threads and locks are as before. *)
Theorem resolver_moves_first_classical_lock
    t p th l c lk
    (Hth : get_thread p t = Some th)
    (Hcl : Thread.classicalLocksHeld th = l :: c)
    (Hsub : sublist (l :: c) (Thread.locksHeld th))
    (Hlk : get_lock p l = Some lk) :
  exists p' h1 h2,
    resolve_thread t p = inr p'
    /\ Thread.locksHeld th = h1 ++ l :: h2 /\ (l ∉ h1)
    /\ get_thread p' t
       = Some (Thread.mk (Thread.id th) (Thread.name th) (Thread.status th)
                 (h1 ++ h2) c (Some l) (Thread.stackTrace th))
    /\ get_lock p' l
       = Some (Lock.mk (Lock.id lk) (Lock.className lk) None (Lock.waiting lk ++ [t]))
    /\ (forall t', t' <> t -> get_thread p' t' = get_thread p t')
    /\ (forall l', l' <> l -> get_lock p' l' = get_lock p l').
Proof.
  destruct (resolved_thread_lists l c th Hcl Hsub) as (h1 & h2 & Hheld & Hnin & Hr & _).
  exists (touch t (resolved_thread l) l (resolved_lock t) p), h1, h2.
  split; [apply (resolve_thread_touch _ _ th); [done | now rewrite Hcl]|].
  split; [done|]. split; [done|]. split; [|split; [|split]].
  - rewrite touch_get_thread. destruct (decide (t = t)); [|done].
    now rewrite Hth, <- Hr.
  - rewrite touch_get_lock. destruct (decide (l = l)); [|done]. now rewrite Hlk.
  - intros t' Hne. rewrite touch_get_thread. destruct (decide (t = t')); congruence.
  - intros l' Hne. rewrite touch_get_lock. destruct (decide (l = l')); congruence.
Qed.

(** ** The threads the resolver works on *)

Lemma resolve_thread_other t p p' x :
  resolve_thread t p = inr p' -> x <> t -> get_thread p' x = get_thread p x.
Proof.
  intros Hres Hne. destruct (resolve_thread_shape _ _ _ Hres)
    as [[_ ->]|(th & l & _ & _ & ->)]; [done|].
  rewrite touch_get_thread. destruct (decide (t = x)); congruence.
Qed.

Lemma forEach_resolve_other ts : forall p p' x,
  forEach_resolve ts p = inr p' -> x ∉ ts -> get_thread p' x = get_thread p x.
Proof.
  induction ts as [|t ts IH]; intros p p' x Hrun Hnin; simpl in Hrun.
  - now injection Hrun as <-.
  - destruct (resolve_thread t p) as [e|p1] eqn:Hres; [discriminate|].
    rewrite (IH _ _ _ Hrun), (resolve_thread_other _ _ _ _ Hres); [done| |];
      intros H; apply Hnin; [subst; left | now right].
Qed.

Lemma filter_elem (f : nat -> bool) l x : x ∈ List.filter f l <-> x ∈ l /\ f x = true.
Proof. rewrite !list_elem_of_In. apply filter_In. Qed.

Lemma selected_elem p threads t :
  t ∈ List.filter (has_valid_status p) (List.filter (no_wait_target p) threads)
  <-> t ∈ threads /\ selected p t = true.
Proof.
  rewrite !filter_elem. unfold selected. rewrite andb_true_iff. tauto.
Qed.

(** X14. The resolver leaves alone every thread that is not in the list it
    is given, that has a wait-target, or whose status is not BLOCKED,
    TIMED_WAITING or WAITING (no status included): the thread is after the
    call what it was before. *)
Theorem resolver_leaves_other_threads
    threads p p' t
    (Hcall : identifyAnonymousSynchronizers threads p = inr p')
    (Hnot : t ∉ threads \/ selected p t = false) :
  get_thread p' t = get_thread p t.
Proof.
  unfold identifyAnonymousSynchronizers in Hcall.
  apply (forEach_resolve_other _ _ _ _ Hcall).
  rewrite selected_elem. intros [Hin Hsel]. destruct Hnot as [Hnot|Hnot]; congruence.
Qed.

Lemma NoDup_filter_bool (f : nat -> bool) l : NoDup l -> NoDup (List.filter f l).
Proof.
  induction 1 as [|x l Hnin _ IH]; simpl; [constructor|].
  destruct (f x); [|exact IH]. constructor; [|exact IH].
  rewrite filter_elem. tauto.
Qed.

(** The loop throws exactly when one of its threads has no classical lock. *)
Lemma forEach_resolve_throws ts : forall p,
  NoDup ts ->
  (exists e, forEach_resolve ts p = inl e)
  <-> exists t th, t ∈ ts /\ get_thread p t = Some th
                   /\ Thread.classicalLocksHeld th = [].
Proof.
  induction ts as [|t ts IH]; intros p Hnd; simpl.
  - split; [intros [e H]; discriminate H | intros (t & th & H & _); inversion H].
  - apply NoDup_cons in Hnd as [Hnin Hnd].
    destruct (resolve_thread t p) as [e|p1] eqn:Hres.
    + split; [intros _ | eauto].
      unfold resolve_thread in Hres. destruct (get_thread p t) as [th|] eqn:Hth;
        [|discriminate].
      destruct (Thread.classicalLocksHeld th) as [|l c] eqn:Hc; [|discriminate].
      exists t, th. repeat split; [left | done | done].
    + rewrite (IH p1 Hnd). split.
      * intros (x & th & Hin & Hth & Hc). exists x, th.
        split; [now right|]. split; [|done].
        rewrite <- Hth. symmetry. apply (resolve_thread_other _ _ _ _ Hres).
        intros ->. contradiction.
      * intros (x & th & Hin & Hth & Hc).
        apply elem_of_cons in Hin as [->|Hin].
        -- unfold resolve_thread in Hres. rewrite Hth, Hc in Hres. discriminate.
        -- exists x, th. split; [done|]. split; [|done].
           rewrite <- Hth. apply (resolve_thread_other _ _ _ _ Hres).
           intros ->. contradiction.
Qed.

(** X15. A call of [parseThreadDump] throws exactly when, after the lines,
    a thread of the dump without wait-target and with the status BLOCKED,
    TIMED_WAITING or WAITING has no classical held lock; nothing else in the
    parser throws. *)
Theorem parse_throws_iff fileName text p :
  let start :=
    ThreadDump.set_date (getDateFromFilename fileName FILENAME_DATE_PATTERN)
      ThreadDump.new in
  let d1 := (parseLines (Str.split_lines text) start p).1 in
  let p1 := (parseLines (Str.split_lines text) start p).2 in
  (exists e, parseThreadDump fileName text p = inl e)
  <-> exists t th, t ∈ ThreadDump.threads d1 /\ selected p1 t = true
                   /\ get_thread p1 t = Some th
                   /\ Thread.classicalLocksHeld th = [].
Proof.
  intros start d1 p1.
  destruct (parseLines_extends (Str.split_lines text) start p) as (m & Ht & _).
  fold d1 in Ht.
  assert (NoDup (ThreadDump.threads d1)) as Hnd
    by (rewrite Ht; cbn; apply NoDup_seq).
  assert ((exists e, parseThreadDump fileName text p = inl e)
          <-> exists e, forEach_resolve
                (List.filter (has_valid_status p1)
                   (List.filter (no_wait_target p1) (ThreadDump.threads d1))) p1
              = inl e) as ->.
  { unfold parseThreadDump, identifyAnonymousSynchronizers. fold start.
    unfold d1, p1. destruct (parseLines (Str.split_lines text) start p) as [d p0].
    cbn [fst snd]. destruct (forEach_resolve _ p0) as [e|p2].
    - split; eauto.
    - split; intros [e H]; discriminate H. }
  rewrite forEach_resolve_throws by (now apply NoDup_filter_bool, NoDup_filter_bool).
  split.
  - intros (t & th & Hin & Hth & Hc). apply selected_elem in Hin as [Hin Hsel]. eauto 8.
  - intros (t & th & Hin & Hsel & Hth & Hc). exists t, th.
    split; [apply selected_elem; auto | auto].
Qed.

(** ** The other records *)



(** X18. A synchronization-status record with another verb changes no
    object and not the dump: with the verb [eliminated] the state is the one
    of before; with any other verb one warning that quotes the line goes to
    the console. *)
Theorem other_verb_changes_no_object
    line d p t state lockId className
    (Hcur : currentThread p = Some t)
    (Hline : sync_of line = [state; lockId; className])
    (Hwait : is_wait_verb state = false)
    (Hlocked : state <> "locked") :
  parseLine line d p
  = (d, if bool_decide (state = "eliminated") then p
        else warn ("Unknown synchronziation status: " ++ line) p).
Proof.
  rewrite parseLine_perform, (action_of_sync _ _ _ _ _ _ Hcur Hline), Hwait.
  rewrite bool_decide_eq_false_2 by exact Hlocked.
  destruct (bool_decide (state = "eliminated")); reflexivity.
Qed.

(** ** What is never taken back *)

Lemma keeps_records_refl p : keeps_records p p.
Proof. split; intros x y H; eexists; repeat split; eauto. Qed.

Lemma keeps_records_trans p1 p2 p3 :
  keeps_records p1 p2 -> keeps_records p2 p3 -> keeps_records p1 p3.
Proof.
  intros [Ht1 Hl1] [Ht2 Hl2]. split.
  - intros t th Hth. destruct (Ht1 _ _ Hth) as (th2 & H2 & Ei2 & En2 & Es2).
    destruct (Ht2 _ _ H2) as (th3 & H3 & Ei3 & En3 & Es3).
    exists th3. repeat split; try congruence. now transitivity (Thread.stackTrace th2).
  - intros l lk Hlk. destruct (Hl1 _ _ Hlk) as (lk2 & H2 & Ei2 & En2 & Es2).
    destruct (Hl2 _ _ H2) as (lk3 & H3 & Ei3 & En3 & Es3).
    exists lk3. repeat split; try congruence. now transitivity (Lock.waiting lk2).
Qed.

Lemma touch_keeps_records t f l g p :
  (forall th, Thread.id (f th) = Thread.id th /\ Thread.name (f th) = Thread.name th
              /\ Thread.stackTrace th `prefix_of` Thread.stackTrace (f th)) ->
  (forall lk, Lock.id (g lk) = Lock.id lk /\ Lock.className (g lk) = Lock.className lk
              /\ Lock.waiting lk `prefix_of` Lock.waiting (g lk)) ->
  keeps_records p (touch t f l g p).
Proof.
  intros Hf Hg. split.
  - intros t' th Hth.
    destruct (touch_thread_fwd t f l g p _ _ Hth) as (th' & -> & [[_ ->]|[_ ->]]).
    + exists th. repeat split; auto.
    + exists (f th). destruct (Hf th) as (? & ? & ?). auto.
  - intros l' lk Hlk.
    destruct (touch_lock_fwd t f l g p _ _ Hlk) as (lk' & -> & [[_ ->]|[_ ->]]).
    + exists lk. repeat split; auto.
    + exists (g lk). destruct (Hg lk) as (? & ? & ?). auto.
Qed.

Lemma getOrCreateLock_keeps_records locks i c p l locks' p1 :
  getOrCreateLock locks i c p = (l, locks', p1) -> keeps_records p p1.
Proof.
  intros Hcall. split.
  - intros t th. rewrite <- (getOrCreateLock_threads _ _ _ _ _ _ _ Hcall).
    intros Hth. exists th. repeat split; auto.
  - intros l' lk Hlk. exists lk. split; [|repeat split; auto].
    now apply (getOrCreateLock_old _ _ _ _ _ _ _ Hcall).
Qed.

Ltac keeps_side :=
  intros; repeat split; cbn; auto; try (now apply prefix_app_r).

Lemma perform_keeps_records a d p : keeps_records p (perform a d p).2.
Proof.
  destruct a as [|msg|header|t frame|t st|t i c|t i c|t i c]; cbn [perform snd].
  - apply keeps_records_refl.
  - split; intros x y H; eexists; repeat split; eauto.
  - split.
    + intros t th Hth. exists th. split; [now apply header_thread_fwd|].
      repeat split; auto.
    + intros l lk Hlk. exists lk. rewrite header_get_lock. repeat split; auto.
  - rewrite upd_thread_touch. apply touch_keeps_records; keeps_side.
  - rewrite upd_thread_touch. apply touch_keeps_records; keeps_side.
  - with_lock d p i c l locks' p1 Hcall. rewrite (record_wait_touch _ _ _ _ _ _ _ _ Hcall).
    eapply keeps_records_trans; [apply (getOrCreateLock_keeps_records _ _ _ _ _ _ _ Hcall)|].
    apply touch_keeps_records; keeps_side.
  - locked_cases p t i Hw; [apply keeps_records_refl|].
    with_lock d p i c l locks' p1 Hcall.
    rewrite (record_locked_touch _ _ _ _ _ _ _ _ Hw Hcall).
    eapply keeps_records_trans; [apply (getOrCreateLock_keeps_records _ _ _ _ _ _ _ Hcall)|].
    apply touch_keeps_records; keeps_side.
  - with_lock d p i c l locks' p1 Hcall. rewrite (record_held_touch _ _ _ _ _ _ _ _ Hcall).
    eapply keeps_records_trans; [apply (getOrCreateLock_keeps_records _ _ _ _ _ _ _ Hcall)|].
    apply touch_keeps_records; keeps_side.
Qed.

Lemma parseLines_keeps_records lines : forall d p,
  keeps_records p (parseLines lines d p).2.
Proof.
  induction lines as [|line lines IH]; intros d p; simpl; [apply keeps_records_refl|].
  rewrite parseLine_perform.
  pose proof (perform_keeps_records (action_of line p) d p) as H.
  destruct (perform (action_of line p) d p) as [d1 p1].
  eapply keeps_records_trans; [exact H | apply IH].
Qed.

Lemma resolve_thread_keeps_records t p p' :
  resolve_thread t p = inr p' -> keeps_records p p'.
Proof.
  intros Hres. destruct (resolve_thread_shape _ _ _ Hres)
    as [[_ ->]|(th & l & _ & _ & ->)]; [apply keeps_records_refl|].
  apply touch_keeps_records; keeps_side.
Qed.

(** X19. Nothing the parser has recorded about the identity of an object is
    ever taken back, by a line or by the resolver, in this call or in a later
    one: a thread keeps its id and its name, and its stack trace only gets
    longer at its end; a lock keeps its id and its class name (the first
    seen), and its waiting list only gets longer at its end. *)
Theorem records_are_kept p :
  (forall lines d, keeps_records p (parseLines lines d p).2)
  /\ (forall fileName text d' p',
        parseThreadDump fileName text p = inr (d', p') -> keeps_records p p').
Proof.
  split; [intros lines d; apply parseLines_keeps_records|].
  intros fileName text d' p' H.
  apply parseThreadDump_inr in H as (d1 & p1 & Hrun & -> & Hres).
  pose proof (parseLines_keeps_records (Str.split_lines text)
                (ThreadDump.set_date
                   (getDateFromFilename fileName FILENAME_DATE_PATTERN)
                   ThreadDump.new) p) as H1.
  rewrite Hrun in H1. revert Hres.
  apply (forEach_resolve_keeps (fun q => keeps_records p q)); [|exact H1].
  intros t q q' Hq Hres. eapply keeps_records_trans; [exact Hq|].
  now apply (resolve_thread_keeps_records t).
Qed.

(** ** The properties on documents *)

Lemma one_lock_per_id_witness :
  ids_distinct (dump_after "dump.txt" rewait_document fresh)
    (state_after "dump.txt" rewait_document fresh)
  /\ NoDup (ThreadDump.locks (dump_after "dump.txt" rewait_document fresh))
  /\ NoDup (ThreadDump.threads (dump_after "dump.txt" rewait_document fresh)).
Proof.
  apply (one_lock_per_id "dump.txt" rewait_document fresh).
  vm_compute. reflexivity.
Defined.

Lemma resolver_moves_first_classical_lock_witness :
  exists p' h1 h2,
    resolve_thread 0 second_owner_state.2 = inr p'
    /\ [0] = h1 ++ 0 :: h2 /\ (0 ∉ h1)
    /\ get_thread p' 0
       = Some (Thread.mk (Str.Num 1) "A" (Some (Member WAITING)) (h1 ++ h2) [] (Some 0) [])
    /\ get_lock p' 0 = Some (Lock.mk "0x1" "A" None ([] ++ [0]))
    /\ (forall t', t' <> 0 -> get_thread p' t' = get_thread second_owner_state.2 t')
    /\ (forall l', l' <> 0 -> get_lock p' l' = get_lock second_owner_state.2 l').
Proof.
  apply (resolver_moves_first_classical_lock 0 second_owner_state.2
           (Thread.mk (Str.Num 1) "A" (Some (Member WAITING)) [0] [0] None [])
           0 [] (Lock.mk "0x1" "A" (Some 0) []));
    first [reflexivity | repeat constructor].
Defined.

Lemma resolver_leaves_other_threads_witness :
  get_thread second_owner_resolved 1 = get_thread second_owner_state.2 1.
Proof.
  apply (resolver_leaves_other_threads [0; 1]).
  - vm_compute. reflexivity.
  - right. reflexivity.
Defined.



Lemma other_verb_changes_no_object_witness :
  parseLine "   - eliminated <0x2> (a B)" waiting_state.1 waiting_state.2
  = (waiting_state.1, waiting_state.2)
  /\ parseLine "   - released <0x2> (a B)" waiting_state.1 waiting_state.2
     = (waiting_state.1,
        warn "Unknown synchronziation status:    - released <0x2> (a B)"
          waiting_state.2).
Proof.
  split.
  - apply (other_verb_changes_no_object _ _ _ 0 "eliminated" "0x2" "B");
      first [reflexivity | discriminate].
  - apply (other_verb_changes_no_object _ _ _ 0 "released" "0x2" "B");
      first [reflexivity | discriminate].
Defined.

Lemma records_are_kept_witness :
  keeps_records (state_after "dump.txt" two_owners_document fresh)
    (parseLines ["   at a.B.c(B.java:1)"; "   - waiting on <0x1> (a A)"]
       (dump_after "dump.txt" two_owners_document fresh)
       (state_after "dump.txt" two_owners_document fresh)).2
  /\ keeps_records (state_after "dump.txt" two_owners_document fresh)
       (state_after "next.txt" later_document
          (state_after "dump.txt" two_owners_document fresh)).
Proof.
  destruct (records_are_kept (state_after "dump.txt" two_owners_document fresh))
    as [H1 H2].
  split.
  - apply H1.
  - apply (H2 "next.txt" later_document
             (dump_after "next.txt" later_document
                (state_after "dump.txt" two_owners_document fresh))).
    vm_compute. reflexivity.
Defined.

(** ** The agreement of the waiting sets and the wait-targets *)























(** ** The held locks and the wait-target in a parsed dump *)












(** ** The owner of a lock in a parsed dump *)











(** ** A lock taken twice *)

Lemma twice_still_there (l : nat) h1 h2 :
  l ∉ h1 -> 1 < count_occ Nat.eq_dec (h1 ++ l :: h2) l -> l ∈ h1 ++ h2.
Proof.
  intros Hnin Hc. apply elem_of_app. right.
  rewrite count_occ_app, count_occ_cons_eq in Hc by reflexivity.
  assert (count_occ Nat.eq_dec h1 l = 0) as E.
  { apply count_occ_not_In. now rewrite <- list_elem_of_In. }
  apply list_elem_of_In. apply (count_occ_In Nat.eq_dec). lia.
Qed.

(** X21. The resolver takes one occurrence of the first classical lock out
    of the locks the thread holds: when the thread holds that lock more than
    once, as after two ['locked'] records for one lock, the lock is after
    the call the wait-target of the thread and still among the locks it
    holds. *)
Theorem resolver_keeps_lock_held_twice
    t p th l c
    (Hth : get_thread p t = Some th)
    (Hcl : Thread.classicalLocksHeld th = l :: c)
    (Hsub : sublist (l :: c) (Thread.locksHeld th))
    (Htwice : 1 < count_occ Nat.eq_dec (Thread.locksHeld th) l) :
  exists p' th',
    resolve_thread t p = inr p'
    /\ get_thread p' t = Some th'
    /\ Thread.lockWaitingFor th' = Some l
    /\ l ∈ Thread.locksHeld th'
    /\ ~ exclusive p'.
Proof.
  assert (Thread.classicalLocksHeld th !! 0 = Some l) as Hl by now rewrite Hcl.
  destruct (resolved_thread_lists l c th Hcl Hsub) as (h1 & h2 & Hh & Hnin & Heq & _).
  rewrite Hh in Htwice. pose proof (twice_still_there l h1 h2 Hnin Htwice) as Hin.
  exists (touch t (resolved_thread l) l (resolved_lock t) p), (resolved_thread l th).
  assert (get_thread (touch t (resolved_thread l) l (resolved_lock t) p) t
          = Some (resolved_thread l th)) as Hth'.
  { rewrite touch_get_thread. destruct (decide (t = t)); [|done]. now rewrite Hth. }
  split; [now apply (resolve_thread_touch t p th l)|]. split; [exact Hth'|].
  split; [reflexivity|].
  assert (l ∈ Thread.locksHeld (resolved_thread l th)) as Hin'
    by (rewrite Heq; exact Hin).
  split; [exact Hin'|].
  intros Hex. now apply (Hex t _ l Hth').
Qed.

Lemma resolver_keeps_lock_held_twice_witness :
  exists p' th',
    resolve_thread 0 reentrant_state = inr p'
    /\ get_thread p' 0 = Some th'
    /\ Thread.lockWaitingFor th' = Some 0
    /\ 0 ∈ Thread.locksHeld th'
    /\ ~ exclusive p'.
Proof.
  apply (resolver_keeps_lock_held_twice 0 reentrant_state
           (Thread.mk (Str.Num 7) "T" (Some (Member WAITING)) [0; 0] [0; 0] None [])
           0 [0]).
  - reflexivity.
  - reflexivity.
  - repeat constructor.
  - vm_compute. lia.
Defined.
